(** * Undo/redo history of the two-panel sync editor (src/App.tsx)

    A shallow embedding of the state kept by the [App] component: the
    React state cells [content], [history] and [historyIndex], the two
    refs [isNavigatingHistory] and [debounceTimer], the effect hook that
    debounces history commits, and the handlers [handleContentChange],
    [handleUndo] and [handleRedo].

    The component is embedded as an event-driven machine.  An event is a
    call of one of the handlers or the passing of one millisecond; a step
    runs the handler, lets React re-render, and runs the effect when one
    of its dependencies [content, history, historyIndex] changed.  Every
    event runs to completion, effect included, before the next one: the
    single-threaded order of the browser, with no handler running between
    a render and its effect. *)

From Stdlib Require Import ZArith List String Ascii Bool Lia.
Import ListNotations.
Open Scope Z_scope.

(** ** JavaScript values and arrays *)

(** The values that flow through [content] and [history]: strings, and
    [undefined], which is what an array read outside its bounds yields. *)
Inductive JsVal : Type :=
| Str (s : string)
| Undefined.

(** [a === b] on these values. *)
Definition strict_eq (a b : JsVal) : bool :=
  match a, b with
  | Str x, Str y => String.eqb x y
  | Undefined, Undefined => true
  | _, _ => false
  end.

(** [a.length] *)
Definition alength (a : list JsVal) : Z := Z.of_nat (List.length a).

(** [a[i]]: [undefined] for a negative index or one past the end. *)
Definition get (a : list JsVal) (i : Z) : JsVal :=
  if i <? 0 then Undefined else nth (Z.to_nat i) a Undefined.

(** [a.slice(0, e)]: a negative [e] counts from the end of the array, and
    the end is clamped to the array. *)
Definition slice0 (a : list JsVal) (e : Z) : list JsVal :=
  let len := alength a in
  let final := if e <? 0 then Z.max (len + e) 0 else Z.min e len in
  firstn (Z.to_nat final) a.

(** [a.push(v)], on the fresh copy made by [slice]. *)
Definition push (a : list JsVal) (v : JsVal) : list JsVal := (a ++ [v])%list.

(** ** The component state *)

(** What the debounced callback closes over: the [content], [history] and
    [historyIndex] of the render in which the effect ran. *)
Record Closure : Type := mkClosure {
  c_content : JsVal;
  c_history : list JsVal;
  c_historyIndex : Z
}.

(** A pending [window.setTimeout]: milliseconds left, and the callback. *)
Record Timer : Type := mkTimer {
  delay : nat;
  captured : Closure
}.

(** [debounceTimer] is the timeout pending under the id held in
    [debounceTimer.current], [None] when the ref is null or the timeout it
    names has run or was cleared ([clearTimeout] of such an id does
    nothing).  Every id returned by [setTimeout] is stored in the ref at
    once, so no other timeout of the component is ever pending.
    [hasCleanup] records whether the last run of the effect returned its
    cleanup function (the early return of the guard path returns none). *)
Record State : Type := mkState {
  content : JsVal;
  history : list JsVal;
  historyIndex : Z;
  isNavigatingHistory : bool;
  debounceTimer : option Timer;
  hasCleanup : bool
}.

Definition setContent (v : JsVal) (st : State) : State :=
  mkState v (history st) (historyIndex st) (isNavigatingHistory st)
          (debounceTimer st) (hasCleanup st).

Definition setHistory (h : list JsVal) (st : State) : State :=
  mkState (content st) h (historyIndex st) (isNavigatingHistory st)
          (debounceTimer st) (hasCleanup st).

Definition setHistoryIndex (i : Z) (st : State) : State :=
  mkState (content st) (history st) i (isNavigatingHistory st)
          (debounceTimer st) (hasCleanup st).

Definition setNavigating (b : bool) (st : State) : State :=
  mkState (content st) (history st) (historyIndex st) b
          (debounceTimer st) (hasCleanup st).

Definition setTimer (t : option Timer) (st : State) : State :=
  mkState (content st) (history st) (historyIndex st) (isNavigatingHistory st)
          t (hasCleanup st).

Definition setCleanup (b : bool) (st : State) : State :=
  mkState (content st) (history st) (historyIndex st) (isNavigatingHistory st)
          (debounceTimer st) b.

Definition closure_of (st : State) : Closure :=
  mkClosure (content st) (history st) (historyIndex st).

(** ** The debounced callback (App.tsx, lines 44-56) *)

Definition DEBOUNCE_DELAY : nat := 500.

(** The body of the callback given to [setTimeout].  [None] is the early
    return; [Some (h, i)] are the arguments of [setHistory] and
    [setHistoryIndex]. *)
Definition debounced (cl : Closure) : option (list JsVal * Z) :=
  let newHistory := slice0 (c_history cl) (c_historyIndex cl + 1) in
  if strict_eq (get newHistory (alength newHistory - 1)) (c_content cl)
  then None
  else
    let newHistory := push newHistory (c_content cl) in
    Some (newHistory, alength newHistory - 1).

(** ** The effect (App.tsx, lines 31-64) *)

(** [clearTimeout(debounceTimer.current)] under [if (debounceTimer.current)]. *)
Definition clearTimer (st : State) : State := setTimer None st.

(** The cleanup returned by the previous run, which React calls before it
    runs the effect again. *)
Definition runCleanup (st : State) : State :=
  if hasCleanup st then clearTimer st else st.

Definition effectBody (st : State) : State :=
  if isNavigatingHistory st then
    setCleanup false (setNavigating false st)
  else
    let st := clearTimer st in
    let st := setTimer (Some (mkTimer DEBOUNCE_DELAY (closure_of st))) st in
    setCleanup true st.

Definition useEffect (st : State) : State := effectBody (runCleanup st).

(** ** The handlers (App.tsx, lines 67-90) *)

Definition handleContentChange (newContent : JsVal) (st : State) : State :=
  setContent newContent st.

Definition handleUndo (st : State) : State :=
  if historyIndex st >? 0 then
    let st1 := setNavigating true st in
    let newIndex := historyIndex st - 1 in
    let st2 := setHistoryIndex newIndex st1 in
    setContent (get (history st) newIndex) st2
  else st.

Definition handleRedo (st : State) : State :=
  if historyIndex st <? alength (history st) - 1 then
    let st1 := setNavigating true st in
    let newIndex := historyIndex st + 1 in
    let st2 := setHistoryIndex newIndex st1 in
    setContent (get (history st) newIndex) st2
  else st.

Definition canUndo (st : State) : bool := historyIndex st >? 0.
Definition canRedo (st : State) : bool :=
  historyIndex st <? alength (history st) - 1.

(** ** Rendering, time and events *)

(** After a handler, React re-renders and runs the effect when a
    dependency differs from the previous render.  The three handlers never
    call [setHistory], so [history] is the same array and only [content]
    and [historyIndex] can differ. *)
Definition depsChanged (old new : State) : bool :=
  negb (strict_eq (content old) (content new))
  || negb (historyIndex old =? historyIndex new).

Definition rerender (old new : State) : State :=
  if depsChanged old new then useEffect new else new.

(** The timeout [t] runs.  When the callback sets the state, [history] is
    a fresh array, so the effect runs again after the re-render. *)
Definition fire (t : Timer) (st : State) : State :=
  let st := setTimer None st in
  match debounced (captured t) with
  | None => st
  | Some (h, i) => useEffect (setHistoryIndex i (setHistory h st))
  end.

(** One millisecond passes. *)
Definition tick (st : State) : State :=
  match debounceTimer st with
  | None => st
  | Some t =>
      if (delay t <=? 1)%nat then fire t st
      else setTimer (Some (mkTimer (Nat.pred (delay t)) (captured t))) st
  end.

Inductive Event : Type :=
| Change (s : string)   (* an editor view calls onChange(s) *)
| Undo                  (* handleUndo *)
| Redo                  (* handleRedo *)
| Tick.                 (* one millisecond passes *)

Definition step (st : State) (e : Event) : State :=
  match e with
  | Change s => rerender st (handleContentChange (Str s) st)
  | Undo => rerender st (handleUndo st)
  | Redo => rerender st (handleRedo st)
  | Tick => tick st
  end.

Definition run (st : State) (es : list Event) : State := fold_left step es st.

(** The snapshot the debounced callback is run with during a step, if it
    runs. *)
Definition fired (st : State) (e : Event) : option JsVal :=
  match e, debounceTimer st with
  | Tick, Some t =>
      if (delay t <=? 1)%nat then Some (c_content (captured t)) else None
  | _, _ => None
  end.

(** The snapshots of all callback runs during a sequence of events. *)
Fixpoint commits (st : State) (es : list Event) : list JsVal :=
  match es with
  | [] => []
  | e :: es' =>
      match fired st e with
      | Some v => v :: commits (step st e) es'
      | None => commits (step st e) es'
      end
  end.

Definition ticks (n : nat) : list Event := repeat Tick n.

(** The first render and the first run of the effect. *)
Definition mount (initial : string) : State :=
  useEffect (mkState (Str initial) [Str initial] 0 false None false).

Definition dq : string := String "034"%char EmptyString.
Definition nl : string := String "010"%char EmptyString.

Definition INITIAL_CONTENT : string :=
  String.concat nl
    [ "<h1>Welcome to the Sync Editor!</h1>";
      "<p>This is a demonstration of a <strong>bidirectional editor</strong>. You can edit the rich text on the left, or the raw HTML on the right.</p>";
      "<p><br></p>";
      "<p>Try some things:</p>";
      "<ul>";
      ("    <li>Change the <span style=" ++ dq ++ "color: rgb(230, 0, 0);" ++ dq ++ ">color</span> of this text.</li>");
      "    <li>Make a word <em>italic</em> or <u>underlined</u>.</li>";
      "    <li>Add a new heading or a list item.</li>";
      "</ul>";
      "<p><br></p>";
      "<p>Your changes will be reflected in the other panel <em>instantly</em>.</p>" ]%string.

Definition init : State := mount INITIAL_CONTENT.

(** The states the component can be in between two events. *)
Inductive reachable (seed : string) : State -> Prop :=
| reach_mount : reachable seed (mount seed)
| reach_step st e : reachable seed st -> reachable seed (step st e).

(** ** The history stack

    [history] and [historyIndex] taken on their own: the entries and the
    cursor.  Its operations are the parts of the callback and of the two
    handlers that read and write these two cells. *)
Record Stack : Type := mkStack {
  entries : list JsVal;
  cursor : Z
}.

Definition stack_of (st : State) : Stack :=
  mkStack (history st) (historyIndex st).

(** The debounced callback run with snapshot [s] (lines 46-55). *)
Definition commit (s : JsVal) (k : Stack) : Stack :=
  match debounced (mkClosure s (entries k) (cursor k)) with
  | None => k
  | Some (h, i) => mkStack h i
  end.

(** Lines 89 and 90. *)
Definition canStepBack (k : Stack) : bool := cursor k >? 0.
Definition canStepForward (k : Stack) : bool :=
  cursor k <? alength (entries k) - 1.

(** Lines 72-76: the new stack, and the snapshot handed to [setContent];
    [None] when the guard of the handler fails. *)
Definition stepBack (k : Stack) : Stack * option JsVal :=
  if cursor k >? 0 then
    let newIndex := cursor k - 1 in
    (mkStack (entries k) newIndex, Some (get (entries k) newIndex))
  else (k, None).

(** Lines 81-85. *)
Definition stepForward (k : Stack) : Stack * option JsVal :=
  if cursor k <? alength (entries k) - 1 then
    let newIndex := cursor k + 1 in
    (mkStack (entries k) newIndex, Some (get (entries k) newIndex))
  else (k, None).

Inductive StackOp : Type :=
| Commit (s : string)
| StepBack
| StepForward.

Definition apply_op (k : Stack) (op : StackOp) : Stack :=
  match op with
  | Commit s => commit (Str s) k
  | StepBack => fst (stepBack k)
  | StepForward => fst (stepForward k)
  end.

Definition run_ops (k : Stack) (ops : list StackOp) : Stack :=
  fold_left apply_op ops k.

(** [useState([INITIAL_CONTENT])] and [useState(0)], lines 26-27. *)
Definition seeded (seed : string) : Stack := mkStack [Str seed] 0.

(** The cursor points at an entry. *)
Definition in_range (k : Stack) : Prop :=
  0 <= cursor k <= alength (entries k) - 1.

(** No two neighbouring entries are equal. *)
Fixpoint adjacent_distinct (l : list JsVal) : bool :=
  match l with
  | a :: (b :: _) as t => negb (strict_eq a b) && adjacent_distinct t
  | _ => true
  end.

Definition is_string (v : JsVal) : bool :=
  match v with Str _ => true | Undefined => false end.

(** ** Invariants *)

(** What holds of the stack seeded with [seed] at all times. *)
Record stack_inv (seed : string) (k : Stack) : Prop := mkStackInv {
  inv_range : in_range k;
  inv_distinct : adjacent_distinct (entries k) = true;
  inv_seed : get (entries k) 0 = Str seed;
  inv_strings : forallb is_string (entries k) = true
}.

(** A pending timeout was set by the last run of the effect: its cleanup
    is registered and its callback closes over the current state. *)
Definition timer_ok (st : State) : Prop :=
  match debounceTimer st with
  | None => True
  | Some t =>
      hasCleanup st = true /\ captured t = closure_of st
      /\ (1 <= delay t <= DEBOUNCE_DELAY)%nat
  end.

(** What holds of the component between two events. *)
Record app_inv (seed : string) (st : State) : Prop := mkAppInv {
  inv_stack : stack_inv seed (stack_of st);
  inv_content : is_string (content st) = true;
  inv_guard : isNavigatingHistory st = false;
  inv_timer : timer_ok st
}.

(** ** Sample states *)

Definition sA : JsVal := Str "<p>A</p>".
Definition sB : JsVal := Str "<p>AB</p>".
Definition sC : JsVal := Str "<p>ABC</p>".
Definition sD : JsVal := Str "<p>AC</p>".

(** Three entries, the cursor on the last. *)
Definition stack_abc : Stack := mkStack [sA; sB; sC] 2.

(** The same entries after one step back. *)
Definition stack_abc_back : Stack := mkStack [sA; sB; sC] 1.

(** The seed, one edit, and a wait past the debounce delay: two entries,
    the cursor on the second. *)
Definition st_two : State :=
  run (mount "<p>A</p>") (Change "<p>AB</p>" :: ticks 500).

(** A run of stack operations and a run of events that commit, step back
    and commit again. *)
Definition sample_ops : list StackOp :=
  [Commit "<p>AB</p>"; Commit "<p>AB</p>"; Commit "<p>ABC</p>"; StepBack;
   Commit "<p>AB</p>"; Commit "<p>A</p>"; StepForward].

Definition sample_events : list Event :=
  (Change "<p>AB</p>" :: ticks 500) ++ (Change "<p>ABC</p>" :: ticks 500)
  ++ [Undo] ++ (Change "<p>AC</p>" :: ticks 500).

(** ** Bursts of edits *)

(** The state right after an edit: no guard, and a fresh timeout over the
    current state. *)
Definition armed (c : JsVal) (h : list JsVal) (i : Z) : State :=
  mkState c h i false (Some (mkTimer DEBOUNCE_DELAY (mkClosure c h i))) true.

(** Edits that follow a first one, each [gap] milliseconds after the one
    before. *)
Fixpoint burst (rest : list (nat * string)) : list Event :=
  match rest with
  | [] => []
  | (gap, s) :: rest' => (ticks gap ++ Change s :: burst rest')%list
  end.

(** A first edit, the edits that follow, and the debounce delay after the
    last of them. *)
Definition window (s1 : string) (rest : list (nat * string)) : list Event :=
  (Change s1 :: burst rest ++ ticks DEBOUNCE_DELAY)%list.




(** Two calls that follow a first one, 499 ms apart; the first of them
    repeats the snapshot of the call before. *)
Definition repeated_edit : list (nat * string) :=
  [(499%nat, "<p>AB</p>"%string); (499%nat, "<p>ABC</p>"%string)].


(** Three entries, the cursor on the last: the seed and two edits, each
    followed by a wait past the debounce delay. *)
Definition st_three : State :=
  run (mount "<p>A</p>")
      ((Change "<p>AB</p>" :: ticks 500) ++ (Change "<p>ABC</p>" :: ticks 500)).

(** Undo pressed until it is no longer available. *)
Definition undo_to_start (st : State) : State :=
  run st (repeat Undo (Z.to_nat (historyIndex st))).

(** No edit waits to be committed: the content is the entry under the
    cursor. *)
Definition quiescent (st : State) : Prop :=
  content st = get (history st) (historyIndex st).

(** ** Unmount (App.tsx, lines 58-63) *)

(** When the component unmounts, React calls the cleanup returned by the
    last run of the effect. *)
Definition unmount (st : State) : State := runCleanup st.

(** ** Counting and repeating events *)

(** Redo pressed until it is no longer available. *)
Definition redo_to_end (st : State) : State :=
  run st (repeat Redo (Z.to_nat (alength (history st) - 1 - historyIndex st))).

Definition is_change (e : Event) : bool :=
  match e with Change _ => true | _ => false end.

(** The number of calls of [onChange] among the events. *)
Definition edits (es : list Event) : nat := List.length (filter is_change es).

(** The entries, and one more while the content is not the entry under
    the cursor. *)
Definition pending_size (st : State) : Z :=
  alength (history st)
  + (if strict_eq (get (history st) (historyIndex st)) (content st)
     then 0 else 1).

(** An edit made 499 ms ago, about to be committed. *)
Definition st_due : State :=
  run (mount "<p>A</p>") (Change "<p>AB</p>" :: ticks 499).

(** ** The copied indicators (App.tsx, lines 22-23, 93-102, 117-122)

    [isRichTextCopied] and [isHtmlCopied] are driven by the same code: when
    a clipboard write resolves, the flag is set and a timeout is started
    that clears it 2000 ms later; when the write is rejected the error is
    logged and the flag is left alone.  The timeouts are never cleared, so
    several can be pending: [resets] holds the milliseconds each has
    left. *)
Record Indicator : Type := mkIndicator {
  copied : bool;
  resets : list nat
}.

Definition COPIED_DELAY : nat := 2000.

(** [useState(false)] *)
Definition indicator0 : Indicator := mkIndicator false [].

(** The [then] callback: [setCopiedState(true)] and the [setTimeout]. *)
Definition onCopied (i : Indicator) : Indicator :=
  mkIndicator true (resets i ++ [COPIED_DELAY])%list.

(** One millisecond passes: every timeout whose delay is over runs
    [setCopiedState(false)]. *)
Definition tickIndicator (i : Indicator) : Indicator :=
  mkIndicator
    (if existsb (fun r => (r <=? 1)%nat) (resets i) then false else copied i)
    (map Nat.pred (filter (fun r => (1 <? r)%nat) (resets i))).

Inductive CopyEvent : Type :=
| Copied       (* the clipboard write resolved *)
| CopyFailed   (* the clipboard write was rejected: console.error only *)
| Wait.        (* one millisecond passes *)

Definition stepIndicator (i : Indicator) (e : CopyEvent) : Indicator :=
  match e with
  | Copied => onCopied i
  | CopyFailed => i
  | Wait => tickIndicator i
  end.

Definition runIndicator (i : Indicator) (es : list CopyEvent) : Indicator :=
  fold_left stepIndicator es i.

Definition waits (n : nat) : list CopyEvent := repeat Wait n.

(** What holds of an indicator at all times: every pending timeout has
    between 1 and 2000 ms left, and one is pending while the flag is
    set. *)
Definition indicator_inv (i : Indicator) : Prop :=
  Forall (fun r => (1 <= r <= COPIED_DELAY)%nat) (resets i)
  /\ (copied i = true -> resets i <> []).

(** An upper bound on the milliseconds until no timeout is pending, when
    nothing but time passes: the delay left, and one more debounce delay
    when the callback will add an entry and so run the effect again. *)
Definition settle_time (st : State) : nat :=
  match debounceTimer st with
  | None => 0
  | Some t =>
      (delay t + match debounced (captured t) with
                 | None => 0
                 | Some _ => DEBOUNCE_DELAY
                 end)%nat
  end.

(** One committed edit, then an undo. *)
Definition undo_events : list Event :=
  (Change "<p>AB</p>" :: ticks 500) ++ [Undo].

(** * Properties *)

(** ** Values and arrays *)

Lemma strict_eq_spec (a b : JsVal) : reflect (a = b) (strict_eq a b).
Proof.
  destruct a as [x|], b as [y|]; simpl; try (constructor; congruence).
  destruct (String.eqb_spec x y); constructor; congruence.
Qed.

Lemma strict_eq_refl (a : JsVal) : strict_eq a a = true.
Proof. destruct (strict_eq_spec a a); congruence. Qed.

Lemma strict_eq_neq (a b : JsVal) : a <> b -> strict_eq a b = false.
Proof. destruct (strict_eq_spec a b); congruence. Qed.

Lemma alength_nonneg (a : list JsVal) : 0 <= alength a.
Proof. unfold alength; lia. Qed.

Lemma alength_push (a : list JsVal) (v : JsVal) :
  alength (push a v) = alength a + 1.
Proof. unfold alength, push. rewrite length_app. simpl. lia. Qed.

Lemma slice0_firstn (a : list JsVal) (e : Z) :
  0 <= e -> slice0 a e = firstn (Z.to_nat e) a.
Proof.
  intros He. unfold slice0.
  destruct (Z.ltb_spec e 0) as [Hlt|_]; [lia|].
  destruct (Z.le_gt_cases e (alength a)) as [Hle|Hgt].
  - now rewrite Z.min_l.
  - rewrite Z.min_r by lia. unfold alength in *.
    rewrite Nat2Z.id. rewrite !firstn_all2; auto; lia.
Qed.

Lemma slice0_nil (e : Z) : slice0 [] e = [].
Proof. unfold slice0. now rewrite firstn_nil. Qed.

Lemma alength_firstn (a : list JsVal) (n : Z) :
  0 <= n <= alength a -> alength (firstn (Z.to_nat n) a) = n.
Proof.
  intros Hn. unfold alength in *. rewrite firstn_length_le; lia.
Qed.

Lemma firstn_alength (a : list JsVal) : firstn (Z.to_nat (alength a)) a = a.
Proof. unfold alength. rewrite Nat2Z.id. apply firstn_all. Qed.

Lemma get_firstn (a : list JsVal) (n i : Z) :
  0 <= i < n -> get (firstn (Z.to_nat n) a) i = get a i.
Proof.
  intros Hi. unfold get.
  destruct (Z.ltb_spec i 0) as [Hlt|_]; [lia|].
  rewrite nth_firstn.
  destruct (Nat.ltb_spec (Z.to_nat i) (Z.to_nat n)); [reflexivity|lia].
Qed.

Lemma get_push_old (a : list JsVal) (v : JsVal) (i : Z) :
  i < alength a -> get (push a v) i = get a i.
Proof.
  intros Hi. unfold get, push.
  destruct (Z.ltb_spec i 0) as [Hlt|Hge]; [reflexivity|].
  apply app_nth1. unfold alength in Hi. lia.
Qed.

Lemma get_push_new (a : list JsVal) (v : JsVal) :
  get (push a v) (alength a) = v.
Proof.
  unfold get, push, alength.
  destruct (Z.ltb_spec (Z.of_nat (List.length a)) 0) as [Hlt|_]; [lia|].
  rewrite Nat2Z.id. apply nth_middle.
Qed.

Lemma get_out_of_range (a : list JsVal) (i : Z) :
  i < 0 \/ alength a <= i -> get a i = Undefined.
Proof.
  intros Hi. unfold get.
  destruct (Z.ltb_spec i 0) as [Hlt|Hge]; [reflexivity|].
  apply nth_overflow. unfold alength in Hi. lia.
Qed.

(** ** The debounced callback *)

(** With the cursor on an entry, the callback compares the snapshot with
    that entry, and otherwise keeps the entries up to the cursor and
    appends the snapshot. *)
Lemma debounced_in_range (s : JsVal) (h : list JsVal) (i : Z) :
  0 <= i < alength h ->
  debounced (mkClosure s h i) =
    if strict_eq (get h i) s then None
    else Some (push (firstn (Z.to_nat (i + 1)) h) s, i + 1).
Proof.
  intros Hi. unfold debounced. cbn [c_history c_historyIndex c_content].
  rewrite slice0_firstn by lia.
  rewrite alength_firstn by lia.
  replace (i + 1 - 1) with i by lia.
  rewrite get_firstn by lia.
  destruct (strict_eq (get h i) s); [reflexivity|].
  rewrite alength_push, alength_firstn by lia.
  do 2 f_equal. lia.
Qed.

(** On an empty array the callback appends unless the snapshot is
    [undefined]. *)
Lemma debounced_nil (s : JsVal) (i : Z) :
  debounced (mkClosure s [] i) =
    if strict_eq Undefined s then None else Some ([s], 0).
Proof.
  unfold debounced. cbn [c_history c_historyIndex c_content].
  rewrite slice0_nil. reflexivity.
Qed.

(** ** Invariants of the history stack *)

Lemma adjacent_distinct_cons (a b : JsVal) (t : list JsVal) :
  adjacent_distinct (a :: b :: t) =
    negb (strict_eq a b) && adjacent_distinct (b :: t).
Proof. reflexivity. Qed.

Lemma adjacent_distinct_firstn (n : nat) (l : list JsVal) :
  adjacent_distinct l = true -> adjacent_distinct (firstn n l) = true.
Proof.
  revert l. induction n as [|n IH]; intros l Hl; [reflexivity|].
  destruct l as [|a [|b t]];
    [reflexivity|cbn [firstn]; now rewrite firstn_nil|].
  change (firstn (S n) (a :: b :: t)) with (a :: firstn n (b :: t)).
  rewrite adjacent_distinct_cons in Hl. apply andb_true_iff in Hl as [Hab Ht].
  specialize (IH _ Ht).
  destruct n as [|n]; [reflexivity|].
  change (firstn (S n) (b :: t)) with (b :: firstn n t) in *.
  rewrite adjacent_distinct_cons. now rewrite Hab.
Qed.

Lemma adjacent_distinct_push (l : list JsVal) (s : JsVal) :
  adjacent_distinct l = true ->
  strict_eq (get l (alength l - 1)) s = false ->
  adjacent_distinct (push l s) = true.
Proof.
  unfold push. induction l as [|a [|b t] IH]; intros Hl Hs.
  - reflexivity.
  - cbn in Hs. cbn. now rewrite Hs.
  - rewrite adjacent_distinct_cons in Hl.
    apply andb_true_iff in Hl as [Hab Ht].
    change (((a :: b :: t) ++ [s])%list) with (a :: b :: (t ++ [s])%list).
    rewrite adjacent_distinct_cons, Hab. cbn [andb].
    apply IH; [exact Ht|].
    rewrite <- Hs. f_equal. unfold get, alength.
    cbn [List.length].
    destruct (Z.ltb_spec (Z.of_nat (S (List.length t)) - 1) 0); [lia|].
    destruct (Z.ltb_spec (Z.of_nat (S (S (List.length t))) - 1) 0); [lia|].
    replace (Z.to_nat (Z.of_nat (S (S (List.length t))) - 1))
      with (S (Z.to_nat (Z.of_nat (S (List.length t)) - 1))) by lia.
    reflexivity.
Qed.

(** The index form of [adjacent_distinct]. *)
Lemma adjacent_distinct_get (l : list JsVal) (i : Z) :
  adjacent_distinct l = true ->
  0 <= i -> i + 1 < alength l -> get l i <> get l (i + 1).
Proof.
  intros Hl Hi Hlen. unfold get.
  destruct (Z.ltb_spec i 0); [lia|]. destruct (Z.ltb_spec (i + 1) 0); [lia|].
  replace (Z.to_nat (i + 1)) with (S (Z.to_nat i)) by lia.
  assert (Hn : (S (Z.to_nat i) < List.length l)%nat)
    by (unfold alength in Hlen; lia).
  clear Hi Hlen H H0. revert l Hl Hn.
  induction (Z.to_nat i) as [|n IH]; intros l Hl Hn.
  - destruct l as [|a [|b t]]; cbn in Hn; try lia.
    rewrite adjacent_distinct_cons in Hl.
    apply andb_true_iff in Hl as [Hab _].
    cbn. destruct (strict_eq_spec a b); [discriminate|assumption].
  - destruct l as [|a [|b t]]; cbn in Hn; try lia.
    rewrite adjacent_distinct_cons in Hl.
    apply andb_true_iff in Hl as [_ Ht].
    change (nth (S n) (a :: b :: t) Undefined) with (nth n (b :: t) Undefined).
    change (nth (S (S n)) (a :: b :: t) Undefined)
      with (nth (S n) (b :: t) Undefined).
    apply IH; [exact Ht|cbn; lia].
Qed.

Lemma forallb_firstn (n : nat) (l : list JsVal) :
  forallb is_string l = true -> forallb is_string (firstn n l) = true.
Proof.
  revert l. induction n as [|n IH]; intros [|a t] Hl; try reflexivity.
  cbn in *. apply andb_true_iff in Hl as [Ha Ht]. now rewrite Ha, IH.
Qed.

Lemma forallb_get (l : list JsVal) (i : Z) :
  forallb is_string l = true -> 0 <= i < alength l ->
  is_string (get l i) = true.
Proof.
  intros Hl Hi. unfold get. destruct (Z.ltb_spec i 0); [lia|].
  rewrite forallb_forall in Hl. apply Hl, nth_In.
  unfold alength in Hi. lia.
Qed.

Lemma stack_inv_seeded (seed : string) : stack_inv seed (seeded seed).
Proof. split; try reflexivity. unfold in_range; cbn; lia. Qed.

(** The result of a commit on a stack whose cursor is on an entry. *)
Lemma commit_in_range (s : JsVal) (k : Stack) :
  in_range k ->
  commit s k =
    if strict_eq (get (entries k) (cursor k)) s then k
    else mkStack (push (firstn (Z.to_nat (cursor k + 1)) (entries k)) s)
                 (cursor k + 1).
Proof.
  intros Hk. unfold commit, in_range in *.
  rewrite debounced_in_range by lia.
  now destruct (strict_eq (get (entries k) (cursor k)) s).
Qed.

Lemma stack_inv_commit (seed s : string) (k : Stack) :
  stack_inv seed k -> stack_inv seed (commit (Str s) k).
Proof.
  intros [Hr Hd Hs Hf]. rewrite commit_in_range by assumption.
  destruct (strict_eq (get (entries k) (cursor k)) (Str s)) eqn:Heq;
    [now split|].
  unfold in_range in Hr.
  split; cbn [entries cursor].
  - unfold in_range; cbn [entries cursor].
    rewrite alength_push, alength_firstn; lia.
  - apply adjacent_distinct_push.
    + now apply adjacent_distinct_firstn.
    + rewrite alength_firstn by lia.
      replace (cursor k + 1 - 1) with (cursor k) by lia.
      now rewrite get_firstn by lia.
  - rewrite get_push_old by (rewrite alength_firstn; lia).
    now rewrite get_firstn by lia.
  - unfold push. rewrite forallb_app, forallb_firstn by assumption.
    reflexivity.
Qed.

Lemma stack_inv_stepBack (seed : string) (k : Stack) :
  stack_inv seed k -> stack_inv seed (fst (stepBack k)).
Proof.
  intros [Hr Hd Hs Hf]. unfold stepBack.
  destruct (Z.gtb_spec (cursor k) 0); [|now split].
  split; auto. unfold in_range in *; cbn [fst entries cursor]; lia.
Qed.

Lemma stack_inv_stepForward (seed : string) (k : Stack) :
  stack_inv seed k -> stack_inv seed (fst (stepForward k)).
Proof.
  intros [Hr Hd Hs Hf]. unfold stepForward.
  destruct (Z.ltb_spec (cursor k) (alength (entries k) - 1)); [|now split].
  split; auto. unfold in_range in *; cbn [fst entries cursor]; lia.
Qed.

Lemma stack_inv_apply_op (seed : string) (k : Stack) (op : StackOp) :
  stack_inv seed k -> stack_inv seed (apply_op k op).
Proof.
  destruct op; cbn [apply_op];
    auto using stack_inv_commit, stack_inv_stepBack, stack_inv_stepForward.
Qed.

Lemma stack_inv_run_ops (seed : string) (ops : list StackOp) (k : Stack) :
  stack_inv seed k -> stack_inv seed (run_ops k ops).
Proof.
  revert k. induction ops as [|op ops IH]; intros k Hk; [exact Hk|].
  apply IH, stack_inv_apply_op, Hk.
Qed.

(** ** The effect and the steps of the component *)

Ltac fields :=
  cbn [content history historyIndex isNavigatingHistory debounceTimer
       hasCleanup setContent setHistory setHistoryIndex setNavigating
       setTimer setCleanup clearTimer closure_of stack_of
       c_content c_history c_historyIndex delay captured entries cursor] in *.

(** A run of the effect after a navigation: the guard is consumed and
    nothing is scheduled. *)
Lemma useEffect_navigating (st : State) :
  isNavigatingHistory st = true ->
  useEffect st =
    mkState (content st) (history st) (historyIndex st) false
            (if hasCleanup st then None else debounceTimer st) false.
Proof.
  intros Hg. unfold useEffect, runCleanup, effectBody.
  destruct st as [c h i g t cl]; fields. subst g.
  destruct cl; fields; reflexivity.
Qed.

(** A run of the effect after an edit or a commit: a fresh timeout over
    the current state replaces the pending one. *)
Lemma useEffect_editing (st : State) :
  isNavigatingHistory st = false ->
  useEffect st =
    mkState (content st) (history st) (historyIndex st) false
            (Some (mkTimer DEBOUNCE_DELAY (closure_of st))) true.
Proof.
  intros Hg. unfold useEffect, runCleanup, effectBody.
  destruct st as [c h i g t cl]; fields. subst g.
  destruct cl; fields; reflexivity.
Qed.

Lemma stack_of_useEffect (st : State) : stack_of (useEffect st) = stack_of st.
Proof.
  destruct (isNavigatingHistory st) eqn:Hg.
  - now rewrite useEffect_navigating.
  - now rewrite useEffect_editing.
Qed.

Lemma depsChanged_same (st : State) : depsChanged st st = false.
Proof. unfold depsChanged. now rewrite strict_eq_refl, Z.eqb_refl. Qed.

Lemma rerender_same (st : State) : rerender st st = st.
Proof. unfold rerender. now rewrite depsChanged_same. Qed.

Lemma step_change_same (st : State) (s : string) :
  content st = Str s -> step st (Change s) = st.
Proof.
  intros Hc. cbn [step]. unfold handleContentChange.
  replace (setContent (Str s) st) with st; [apply rerender_same|].
  destruct st; fields; now subst.
Qed.

Lemma step_change_new (st : State) (s : string) :
  content st <> Str s -> isNavigatingHistory st = false ->
  step st (Change s) =
    mkState (Str s) (history st) (historyIndex st) false
            (Some (mkTimer DEBOUNCE_DELAY
                     (mkClosure (Str s) (history st) (historyIndex st))))
            true.
Proof.
  intros Hc Hg. cbn [step]. unfold handleContentChange, rerender, depsChanged.
  fields. rewrite (strict_eq_neq _ _ Hc). cbn [negb orb].
  rewrite useEffect_editing by (destruct st; assumption).
  destruct st; reflexivity.
Qed.

Lemma step_undo_off (st : State) : canUndo st = false -> step st Undo = st.
Proof.
  unfold canUndo. intros Hc. cbn [step]. unfold handleUndo.
  rewrite Hc. apply rerender_same.
Qed.

Lemma step_redo_off (st : State) : canRedo st = false -> step st Redo = st.
Proof.
  unfold canRedo. intros Hc. cbn [step]. unfold handleRedo.
  rewrite Hc. apply rerender_same.
Qed.

Lemma step_undo_on (st : State) :
  canUndo st = true ->
  step st Undo = useEffect (handleUndo st) /\
  step st Undo =
    mkState (get (history st) (historyIndex st - 1)) (history st)
            (historyIndex st - 1) false
            (if hasCleanup st then None else debounceTimer st) false.
Proof.
  unfold canUndo. intros Hc. cbn [step].
  assert (Hd : depsChanged st (handleUndo st) = true).
  { unfold depsChanged, handleUndo. rewrite Hc. fields.
    destruct (Z.eqb_spec (historyIndex st) (historyIndex st - 1)); [lia|].
    apply orb_true_r. }
  unfold rerender. rewrite Hd. split; [reflexivity|].
  unfold handleUndo. rewrite Hc.
  rewrite useEffect_navigating by (destruct st; reflexivity).
  destruct st; reflexivity.
Qed.

Lemma step_redo_on (st : State) :
  canRedo st = true ->
  step st Redo = useEffect (handleRedo st) /\
  step st Redo =
    mkState (get (history st) (historyIndex st + 1)) (history st)
            (historyIndex st + 1) false
            (if hasCleanup st then None else debounceTimer st) false.
Proof.
  unfold canRedo. intros Hc. cbn [step].
  assert (Hd : depsChanged st (handleRedo st) = true).
  { unfold depsChanged, handleRedo. rewrite Hc. fields.
    destruct (Z.eqb_spec (historyIndex st) (historyIndex st + 1)); [lia|].
    apply orb_true_r. }
  unfold rerender. rewrite Hd. split; [reflexivity|].
  unfold handleRedo. rewrite Hc.
  rewrite useEffect_navigating by (destruct st; reflexivity).
  destruct st; reflexivity.
Qed.

(** The stack after a step is the stack before, or one operation of the
    history stack applied to it. *)
Lemma stack_of_undo (st : State) :
  stack_of (step st Undo) = fst (stepBack (stack_of st)).
Proof.
  unfold stepBack. fields. destruct (canUndo st) eqn:Hc.
  - destruct (step_undo_on st Hc) as [_ ->]. unfold canUndo in Hc.
    now rewrite Hc.
  - rewrite (step_undo_off st Hc). unfold canUndo in Hc. now rewrite Hc.
Qed.

Lemma stack_of_redo (st : State) :
  stack_of (step st Redo) = fst (stepForward (stack_of st)).
Proof.
  unfold stepForward. fields. destruct (canRedo st) eqn:Hc.
  - destruct (step_redo_on st Hc) as [_ ->]. unfold canRedo in Hc.
    now rewrite Hc.
  - rewrite (step_redo_off st Hc). unfold canRedo in Hc. now rewrite Hc.
Qed.

Lemma stack_of_change (st : State) (s : string) :
  stack_of (step st (Change s)) = stack_of st.
Proof.
  cbn [step]. unfold rerender, handleContentChange.
  destruct (depsChanged _ _); [rewrite stack_of_useEffect|];
    destruct st; reflexivity.
Qed.

(** A timeout that closes over the current state performs [commit]. *)
Lemma stack_of_fire (t : Timer) (st : State) :
  captured t = closure_of st ->
  stack_of (fire t st) = commit (content st) (stack_of st).
Proof.
  intros Ht. unfold fire, commit. rewrite Ht. fields.
  change (closure_of st) with
    (mkClosure (content st) (history st) (historyIndex st)).
  destruct (debounced _) as [[h i]|]; [|reflexivity].
  now rewrite stack_of_useEffect.
Qed.

Lemma tick_idle (st : State) : debounceTimer st = None -> tick st = st.
Proof. intros Ht. unfold tick. now rewrite Ht. Qed.

Lemma tick_wait (st : State) (t : Timer) :
  debounceTimer st = Some t -> (1 < delay t)%nat ->
  tick st = setTimer (Some (mkTimer (Nat.pred (delay t)) (captured t))) st.
Proof.
  intros Ht Hd. unfold tick. rewrite Ht.
  destruct (Nat.leb_spec (delay t) 1); [lia|reflexivity].
Qed.

Lemma tick_fire (st : State) (t : Timer) :
  debounceTimer st = Some t -> (delay t <= 1)%nat -> tick st = fire t st.
Proof.
  intros Ht Hd. unfold tick. rewrite Ht.
  destruct (Nat.leb_spec (delay t) 1); [reflexivity|lia].
Qed.

(** ** The invariant of the component *)

Lemma app_inv_mount (seed : string) : app_inv seed (mount seed).
Proof.
  unfold mount. rewrite useEffect_editing by reflexivity.
  split; fields; try reflexivity.
  - apply stack_inv_seeded.
  - unfold timer_ok; fields. repeat split; unfold DEBOUNCE_DELAY; lia.
Qed.

Lemma timer_ok_fresh (c : JsVal) (h : list JsVal) (i : Z) :
  timer_ok (mkState c h i false
              (Some (mkTimer DEBOUNCE_DELAY (mkClosure c h i))) true).
Proof.
  unfold timer_ok; fields. repeat split; unfold DEBOUNCE_DELAY; lia.
Qed.

(** Between two events a pending timeout is always cancelled by a run of
    the effect: its cleanup is registered. *)
Lemma timer_cancelled (st : State) :
  timer_ok st -> (if hasCleanup st then None else debounceTimer st) = None.
Proof.
  unfold timer_ok. destruct (debounceTimer st) as [t|].
  - intros [-> _]. reflexivity.
  - now destruct (hasCleanup st).
Qed.

Lemma app_inv_fire (seed : string) (st : State) (t : Timer) :
  app_inv seed st -> debounceTimer st = Some t ->
  app_inv seed (fire t st).
Proof.
  intros [Hs Hc Hg Ht] Hp.
  assert (Hcl : captured t = closure_of st).
  { unfold timer_ok in Ht. rewrite Hp in Ht. tauto. }
  assert (Hk : stack_inv seed (stack_of (fire t st))).
  { rewrite stack_of_fire by assumption.
    destruct (content st) as [s|] eqn:E; [|discriminate].
    now apply stack_inv_commit. }
  revert Hk. unfold fire.
  destruct (debounced (captured t)) as [[h i]|]; intros Hk.
  - rewrite useEffect_editing in * by (destruct st; assumption).
    fields. split; fields; auto using timer_ok_fresh.
  - split; fields; auto. exact I.
Qed.

Lemma app_inv_step (seed : string) (st : State) (e : Event) :
  app_inv seed st -> app_inv seed (step st e).
Proof.
  intros Hinv. pose proof Hinv as [Hs Hc Hg Ht]. destruct e as [s| | |].
  - destruct (strict_eq_spec (content st) (Str s)) as [Heq|Hne].
    + now rewrite step_change_same.
    + rewrite step_change_new by assumption.
      split; fields; auto using timer_ok_fresh.
  - assert (Hk : stack_inv seed (stack_of (step st Undo)))
      by (rewrite stack_of_undo; now apply stack_inv_stepBack).
    destruct (canUndo st) eqn:Hu; [|now rewrite step_undo_off].
    destruct (step_undo_on st Hu) as [_ E]. rewrite E in *.
    rewrite (timer_cancelled st Ht).
    split; fields; auto; [|exact I].
    destruct Hs as [Hr _ _ Hf]. unfold in_range, canUndo in *. fields.
    apply forallb_get; [assumption|lia].
  - assert (Hk : stack_inv seed (stack_of (step st Redo)))
      by (rewrite stack_of_redo; now apply stack_inv_stepForward).
    destruct (canRedo st) eqn:Hu; [|now rewrite step_redo_off].
    destruct (step_redo_on st Hu) as [_ E]. rewrite E in *.
    rewrite (timer_cancelled st Ht).
    split; fields; auto; [|exact I].
    destruct Hs as [Hr _ _ Hf]. unfold in_range, canRedo in *. fields.
    apply forallb_get; [assumption|lia].
  - cbn [step]. destruct (debounceTimer st) as [t|] eqn:Hp;
      [|now rewrite tick_idle].
    destruct (Nat.leb_spec (delay t) 1) as [Hle|Hgt].
    + rewrite (tick_fire st t) by assumption. now apply app_inv_fire.
    + rewrite (tick_wait st t) by assumption.
      split; fields; auto.
      unfold timer_ok in *. rewrite Hp in Ht. fields.
      destruct Ht as (Hcu & Hcl & Hd). repeat split; auto; cbn; lia.
Qed.

Lemma app_inv_run (seed : string) (es : list Event) (st : State) :
  app_inv seed st -> app_inv seed (run st es).
Proof.
  revert st. induction es as [|e es IH]; intros st Hst; [exact Hst|].
  apply IH, app_inv_step, Hst.
Qed.

Lemma reachable_app_inv (seed : string) (st : State) :
  reachable seed st -> app_inv seed st.
Proof.
  induction 1; [apply app_inv_mount|now apply app_inv_step].
Qed.

Lemma reachable_run (seed : string) (es : list Event) (st : State) :
  reachable seed st -> reachable seed (run st es).
Proof.
  revert st. induction es as [|e es IH]; intros st Hst; [exact Hst|].
  apply IH. now constructor.
Qed.

(** Every step of the component is at most one operation of the history
    stack. *)
Lemma step_refines (seed : string) (st : State) (e : Event) :
  app_inv seed st ->
  exists ops, stack_of (step st e) = run_ops (stack_of st) ops.
Proof.
  intros [Hs Hc Hg Ht]. destruct e as [s| | |].
  - exists []. apply stack_of_change.
  - exists [StepBack]. apply stack_of_undo.
  - exists [StepForward]. apply stack_of_redo.
  - cbn [step]. destruct (debounceTimer st) as [t|] eqn:Hp;
      [|exists []; now rewrite tick_idle].
    destruct (Nat.leb_spec (delay t) 1) as [Hle|Hgt].
    + rewrite (tick_fire st t) by assumption.
      unfold timer_ok in Ht. rewrite Hp in Ht.
      destruct Ht as (_ & Hcl & _). rewrite stack_of_fire by assumption.
      destruct (content st) as [s|]; [|discriminate].
      now exists [Commit s].
    + rewrite (tick_wait st t) by assumption. now exists [].
Qed.

Lemma run_ops_app (k : Stack) (ops1 ops2 : list StackOp) :
  run_ops k (ops1 ++ ops2) = run_ops (run_ops k ops1) ops2.
Proof. apply fold_left_app. Qed.

(** The stack of a reachable state is reached from the seeded stack by
    operations of the history stack. *)
Lemma reachable_refines (seed : string) (st : State) :
  reachable seed st ->
  exists ops, stack_of st = run_ops (seeded seed) ops.
Proof.
  induction 1 as [|st e Hr [ops IH]].
  - exists []. unfold mount. now rewrite stack_of_useEffect.
  - destruct (step_refines seed st e (reachable_app_inv _ _ Hr)) as [ops' E].
    exists (ops ++ ops')%list. now rewrite run_ops_app, <- IH.
Qed.

(** ** Time *)

Lemma run_app (st : State) (es1 es2 : list Event) :
  run st (es1 ++ es2) = run (run st es1) es2.
Proof. apply fold_left_app. Qed.

Lemma run_cons (st : State) (e : Event) (es : list Event) :
  run st (e :: es) = run (step st e) es.
Proof. reflexivity. Qed.

Lemma commits_app (es1 es2 : list Event) (st : State) :
  commits st (es1 ++ es2) = (commits st es1 ++ commits (run st es1) es2)%list.
Proof.
  revert st. induction es1 as [|e es1 IH]; intros st; [reflexivity|].
  cbn [app commits run fold_left].
  change (fold_left step es1 (step st e)) with (run (step st e) es1).
  destruct (fired st e); rewrite IH; reflexivity.
Qed.


(** While no timeout is pending nothing happens. *)
Lemma ticks_idle (n : nat) (st : State) :
  debounceTimer st = None ->
  run st (ticks n) = st /\ commits st (ticks n) = [].
Proof.
  intros Ht. induction n as [|n [IH1 IH2]]; [now split|].
  unfold ticks in *. cbn [repeat run commits fold_left step fired].
  rewrite Ht, tick_idle by assumption. now split.
Qed.

(** Before its delay is over, a pending timeout only counts down. *)
Lemma ticks_wait (n : nat) (st : State) (t : Timer) :
  debounceTimer st = Some t -> (n < delay t)%nat ->
  run st (ticks n)
    = setTimer (Some (mkTimer (delay t - n) (captured t))) st /\
  commits st (ticks n) = [].
Proof.
  revert st t. induction n as [|n IH]; intros st t Ht Hn.
  - split; [|reflexivity]. cbn. rewrite Nat.sub_0_r.
    destruct st, t; fields. now subst.
  - unfold ticks in *. cbn [repeat run commits fold_left step fired].
    rewrite Ht. destruct (Nat.leb_spec (delay t) 1) as [Hle|Hgt]; [lia|].
    rewrite (tick_wait st t) by assumption.
    destruct (IH (setTimer (Some (mkTimer (Nat.pred (delay t)) (captured t)))
                           st)
                 (mkTimer (Nat.pred (delay t)) (captured t)))
      as [IH1 IH2]; [reflexivity|fields; lia|].
    unfold run in IH1. rewrite IH1, IH2. fields.
    split; [|reflexivity].
    replace (Nat.pred (delay t) - n)%nat with (delay t - S n)%nat by lia.
    reflexivity.
Qed.

(** When its delay is over, the timeout runs, once. *)
Lemma ticks_fire (st : State) (t : Timer) :
  debounceTimer st = Some t -> (1 <= delay t)%nat ->
  run st (ticks (delay t)) = fire t st /\
  commits st (ticks (delay t)) = [c_content (captured t)].
Proof.
  intros Ht Hd.
  destruct (ticks_wait (delay t - 1) st t Ht) as [E1 E2]; [lia|].
  replace (delay t - (delay t - 1))%nat with 1%nat in E1 by lia.
  replace (ticks (delay t)) with (ticks (delay t - 1) ++ [Tick])%list.
  2:{ unfold ticks. change [Tick] with (repeat Tick 1).
      rewrite <- repeat_app. f_equal. lia. }
  rewrite run_app, commits_app, E1, E2.
  cbn [repeat run commits fold_left step fired app]. fields.
  cbn [Nat.leb]. split; [|reflexivity].
  unfold tick. fields. cbn [Nat.leb].
  unfold fire. fields.
  destruct (debounced (captured t)) as [[h i]|]; destruct st; reflexivity.
Qed.

(** ** Bursts *)

Lemma step_change_armed (st : State) (s : string) :
  content st <> Str s -> isNavigatingHistory st = false ->
  step st (Change s) = armed (Str s) (history st) (historyIndex st).
Proof. apply step_change_new. Qed.



(** The timeout of an armed state runs when the delay is over. *)
Lemma armed_fires (c : JsVal) (h : list JsVal) (i : Z) :
  stack_of (run (armed c h i) (ticks DEBOUNCE_DELAY))
    = commit c (mkStack h i) /\
  commits (armed c h i) (ticks DEBOUNCE_DELAY) = [c] /\
  commits (armed c h i) (ticks (DEBOUNCE_DELAY - 1)) = [].
Proof.
  destruct (ticks_fire (armed c h i)
              (mkTimer DEBOUNCE_DELAY (mkClosure c h i)))
    as [E1 E2]; [reflexivity|unfold DEBOUNCE_DELAY; cbn; lia|].
  cbn [delay captured c_content] in E1, E2. rewrite E1, E2.
  split; [|split; [reflexivity|]].
  - now rewrite stack_of_fire.
  - apply (ticks_wait _ _ (mkTimer DEBOUNCE_DELAY (mkClosure c h i)));
      [reflexivity|unfold DEBOUNCE_DELAY; cbn; lia].
Qed.

(** A second run of the callback over the state the first one left adds
    nothing. *)
Lemma debounced_again (cl : Closure) (h : list JsVal) (i : Z) :
  debounced cl = Some (h, i) -> debounced (mkClosure (c_content cl) h i) = None.
Proof.
  unfold debounced at 1.
  destruct (strict_eq _ (c_content cl)); [discriminate|].
  set (nh := slice0 (c_history cl) (c_historyIndex cl + 1)).
  intros E. injection E as <- <-.
  unfold debounced. cbn [c_content c_history c_historyIndex].
  replace (alength (push nh (c_content cl)) - 1 + 1)
    with (alength (push nh (c_content cl))) by lia.
  rewrite slice0_firstn by apply alength_nonneg.
  rewrite firstn_alength, alength_push. replace (alength nh + 1 - 1) with (alength nh) by lia.
  now rewrite get_push_new, strict_eq_refl.
Qed.



(** ** Runs from the mount and from the seeded stack *)

Lemma run_mount_inv (seed : string) (es : list Event) :
  app_inv seed (run (mount seed) es).
Proof. apply app_inv_run, app_inv_mount. Qed.

(** The reachable states are the runs from the mount. *)
Lemma reachable_iff_run (seed : string) (st : State) :
  reachable seed st <-> exists es, st = run (mount seed) es.
Proof.
  split.
  - induction 1 as [|st e Hr [es ->]].
    + now exists [].
    + exists (es ++ [e])%list. now rewrite run_app.
  - intros [es ->]. apply reachable_run, reach_mount.
Qed.

(** The document the editor starts with stays the first entry. *)
Corollary initial_content_kept (es : list Event) :
  get (history (run init es)) 0 = Str INITIAL_CONTENT.
Proof.
  apply (inv_seed INITIAL_CONTENT (stack_of (run init es))).
  apply inv_stack, run_mount_inv.
Qed.

Lemma run_ops_seeded_inv (seed : string) (ops : list StackOp) :
  stack_inv seed (run_ops (seeded seed) ops).
Proof. apply stack_inv_run_ops, stack_inv_seeded. Qed.

Lemma stack_inv_defined (seed : string) (k : Stack) :
  stack_inv seed k ->
  entries k <> [] /\ exists s, get (entries k) (cursor k) = Str s.
Proof.
  intros [Hr _ _ Hf]. unfold in_range in Hr. split.
  - intros E. rewrite E in Hr. unfold alength in Hr. cbn in Hr. lia.
  - pose proof (forallb_get _ (cursor k) Hf) as Hs.
    destruct (get (entries k) (cursor k)) as [s|].
    + now exists s.
    + discriminate Hs. lia.
Qed.

(** ** Undo to the start *)

Lemma stepBack_all (n : nat) (k : Stack) :
  0 <= cursor k -> n = Z.to_nat (cursor k) ->
  run_ops k (repeat StepBack n) = mkStack (entries k) 0.
Proof.
  revert k. induction n as [|n IH]; intros [h c] Hc Hn;
    cbn [entries cursor] in *.
  - cbn. f_equal. lia.
  - cbn [repeat run_ops fold_left apply_op]. unfold stepBack.
    cbn [entries cursor].
    destruct (Z.gtb_spec c 0); [|lia]. cbn [fst].
    change (fold_left apply_op (repeat StepBack n) (mkStack h (c - 1)))
      with (run_ops (mkStack h (c - 1)) (repeat StepBack n)).
    rewrite IH; cbn [entries cursor]; [reflexivity|lia|lia].
Qed.

Lemma undo_all (seed : string) (n : nat) (st : State) :
  app_inv seed st -> n = Z.to_nat (historyIndex st) ->
  history (run st (repeat Undo n)) = history st /\
  historyIndex (run st (repeat Undo n)) = 0 /\
  (0 < historyIndex st \/ quiescent st ->
   content (run st (repeat Undo n)) = Str seed).
Proof.
  revert st. induction n as [|n IH]; intros st Hinv Hn.
  - pose proof (inv_range _ _ (inv_stack _ _ Hinv)) as Hr.
    unfold in_range in Hr. fields.
    assert (Hi : historyIndex st = 0) by lia.
    cbn. repeat split; try assumption.
    intros [Hpos|Hq]; [lia|]. unfold quiescent in Hq. rewrite Hq, Hi.
    apply (inv_seed seed (stack_of st)), inv_stack, Hinv.
  - assert (Hu : canUndo st = true) by (unfold canUndo; apply Z.gtb_lt; lia).
    pose proof (app_inv_step seed st Undo Hinv) as Hinv'.
    destruct (step_undo_on st Hu) as [_ E].
    cbn [repeat]. rewrite !run_cons.
    assert (Hq : quiescent (step st Undo))
      by (rewrite E; unfold quiescent; reflexivity).
    destruct (IH (step st Undo) Hinv') as (Hh & Hi & Hc).
    { rewrite E. fields. lia. }
    split; [|split].
    + rewrite Hh, E. reflexivity.
    + exact Hi.
    + intros _. apply Hc. now right.
Qed.

(** The content of a state with no pending timeout is the entry under the
    cursor. *)
Lemma idle_quiescent (seed : string) (st : State) :
  reachable seed st -> debounceTimer st = None -> quiescent st.
Proof.
  induction 1 as [|st e Hr IH].
  - unfold mount. rewrite useEffect_editing by reflexivity. discriminate.
  - pose proof (reachable_app_inv _ _ Hr) as Hinv.
    pose proof Hinv as [[Hrg _ _ _] _ Hg Ht].
    unfold in_range in Hrg; fields. destruct e as [s| | |].
    + destruct (strict_eq_spec (content st) (Str s)) as [Heq|Hne].
      * now rewrite step_change_same.
      * rewrite step_change_new by assumption. discriminate.
    + destruct (canUndo st) eqn:Hu; [|now rewrite step_undo_off].
      destruct (step_undo_on st Hu) as [_ ->]. reflexivity.
    + destruct (canRedo st) eqn:Hu; [|now rewrite step_redo_off].
      destruct (step_redo_on st Hu) as [_ ->]. reflexivity.
    + cbn [step]. destruct (debounceTimer st) as [t|] eqn:Hp;
        [|rewrite tick_idle by assumption; intros _; now apply IH].
      destruct (Nat.leb_spec (delay t) 1) as [Hle|Hgt].
      * rewrite (tick_fire st t) by assumption.
        unfold timer_ok in Ht. rewrite Hp in Ht. destruct Ht as (_ & Hcl & _).
        unfold fire. rewrite Hcl. unfold closure_of.
        rewrite debounced_in_range by lia.
        destruct (strict_eq_spec (get (history st) (historyIndex st))
                                 (content st)) as [Heq|Hne].
        -- intros _. unfold quiescent. fields. now symmetry.
        -- rewrite useEffect_editing by (destruct st; assumption).
           discriminate.
      * rewrite (tick_wait st t) by assumption. discriminate.
Qed.

(** Once the content is the entry under the cursor, the passing of time
    changes neither. *)
Lemma quiescent_tick (seed : string) (st : State) :
  app_inv seed st -> quiescent st -> quiescent (step st Tick).
Proof.
  intros Hinv Hq. pose proof Hinv as [[Hrg _ _ _] _ Hg Ht].
  unfold in_range in Hrg; fields. cbn [step].
  destruct (debounceTimer st) as [t|] eqn:Hp; [|now rewrite tick_idle].
  destruct (Nat.leb_spec (delay t) 1) as [Hle|Hgt].
  - rewrite (tick_fire st t) by assumption.
    unfold timer_ok in Ht. rewrite Hp in Ht. destruct Ht as (_ & Hcl & _).
    unfold fire. rewrite Hcl. unfold closure_of.
    rewrite debounced_in_range by lia.
    unfold quiescent in Hq. rewrite <- Hq, strict_eq_refl.
    unfold quiescent. fields. exact Hq.
  - rewrite (tick_wait st t) by assumption. exact Hq.
Qed.

Lemma quiescent_ticks (seed : string) (n : nat) (st : State) :
  app_inv seed st -> quiescent st -> quiescent (run st (ticks n)).
Proof.
  revert st. induction n as [|n IH]; intros st Hinv Hq; [exact Hq|].
  unfold ticks. cbn [repeat]. rewrite run_cons.
  apply IH; [now apply app_inv_step|now apply (quiescent_tick seed)].
Qed.

(** When the pending timeout has run, the content is the entry under the
    cursor. *)
Lemma fire_quiescent (seed : string) (st : State) (t : Timer) :
  app_inv seed st -> debounceTimer st = Some t -> quiescent (fire t st).
Proof.
  intros Hinv Hp. pose proof Hinv as [[Hrg _ _ _] _ Hg Ht].
  unfold in_range in Hrg; fields.
  unfold timer_ok in Ht. rewrite Hp in Ht. destruct Ht as (_ & Hcl & _).
  unfold fire. rewrite Hcl. unfold closure_of.
  rewrite debounced_in_range by lia.
  destruct (strict_eq_spec (get (history st) (historyIndex st)) (content st))
    as [Heq|Hne].
  - unfold quiescent. fields. now symmetry.
  - rewrite useEffect_editing by (destruct st; assumption).
    unfold quiescent. fields.
    rewrite <- (alength_firstn (history st) (historyIndex st + 1)) at 2 by lia.
    now rewrite get_push_new.
Qed.

(** After the debounce delay no edit waits to be committed. *)
Lemma settles (seed : string) (st : State) :
  reachable seed st -> quiescent (run st (ticks DEBOUNCE_DELAY)).
Proof.
  intros Hr. pose proof (reachable_app_inv _ _ Hr) as Hinv.
  destruct (debounceTimer st) as [t|] eqn:Hp.
  - pose proof (inv_timer _ _ Hinv) as Ht. unfold timer_ok in Ht.
    rewrite Hp in Ht. destruct Ht as (_ & _ & Hd).
    replace DEBOUNCE_DELAY with (delay t + (DEBOUNCE_DELAY - delay t))%nat
      at 1 by lia.
    unfold ticks. rewrite repeat_app, run_app.
    destruct (ticks_fire st t Hp) as [E _]; [lia|].
    unfold ticks in E. rewrite E.
    apply (quiescent_ticks seed).
    + rewrite <- E. now apply app_inv_run.
    + now apply (fire_quiescent seed).
  - apply (quiescent_ticks seed); [exact Hinv|].
    now apply (idle_quiescent seed).
Qed.

(** * The claims *)

(** ** Commit *)

(** C1.  On every stack whose cursor is on an entry (and on the empty
    stack), [commit s] leaves the stack as it is when [s] equals
    [entries[cursor]]; otherwise the new entries are the old ones up to and
    including the cursor followed by [s], and the cursor is the new last
    index. *)
Theorem commit_spec (k : Stack) (s : JsVal) :
  (0 < alength (entries k) -> in_range k) ->
  (s = get (entries k) (cursor k) -> commit s k = k) /\
  (s <> get (entries k) (cursor k) ->
   entries (commit s k)
     = (firstn (Z.to_nat (cursor k + 1)) (entries k) ++ [s])%list
   /\ cursor (commit s k) = alength (entries (commit s k)) - 1).
Proof.
  intros Hk. destruct k as [h c]. cbn [entries cursor] in *.
  destruct h as [|a h].
  - unfold commit. cbn [entries cursor]. rewrite debounced_nil.
    rewrite (get_out_of_range [] c) by (unfold alength; cbn; lia).
    split; intros Hs.
    + subst s. reflexivity.
    + rewrite strict_eq_neq by congruence. cbn [entries cursor].
      rewrite firstn_nil. split; reflexivity.
  - assert (Hr : in_range (mkStack (a :: h) c))
      by (apply Hk; unfold alength; cbn [List.length]; lia).
    rewrite commit_in_range by assumption. cbn [entries cursor].
    split; intros Hs.
    + subst s. now rewrite strict_eq_refl.
    + rewrite strict_eq_neq by congruence. cbn [entries cursor].
      split; [reflexivity|].
      unfold in_range in Hr; cbn [entries cursor] in Hr.
      rewrite alength_push, alength_firstn; lia.
Qed.

Lemma commit_spec_witness :
  (0 < alength (entries stack_abc_back) -> in_range stack_abc_back) /\
  commit sB stack_abc_back = stack_abc_back /\
  entries (commit sD stack_abc_back) = [sA; sB; sD] /\
  cursor (commit sD stack_abc_back) = 2.
Proof.
  assert (Hk : 0 < alength (entries stack_abc_back) -> in_range stack_abc_back)
    by (intros _; unfold in_range; cbn; lia).
  split; [exact Hk|].
  split; [apply (commit_spec stack_abc_back sB Hk); reflexivity|].
  destruct (commit_spec stack_abc_back sD Hk) as [_ H].
  destruct H as [He Hc]; [discriminate|].
  split; [exact He|]. rewrite Hc, He. reflexivity.
Defined.

(** ** Debounce *)



(** A call of [onChange] with the content already current is no edit:
    [setContent] with an equal value changes no dependency, the effect
    does not run and the pending timeout keeps its deadline.  With calls
    at 0, 499 and 998 ms, the second repeating the first, the callback
    runs at 500 ms, 500 ms after the first call, and again at 1498 ms. *)
Example repeated_call_keeps_deadline :
  step (step (mount "<p>A</p>") (Change "<p>AB</p>")) (Change "<p>AB</p>")
    = step (mount "<p>A</p>") (Change "<p>AB</p>") /\
  commits (mount "<p>A</p>") (window "<p>AB</p>" repeated_edit) = [sB; sC] /\
  history (run (mount "<p>A</p>") (window "<p>AB</p>" repeated_edit))
    = [sA; sB; sC].
Proof. repeat split; vm_compute; reflexivity. Qed.

(** An edit taken back within the delay: the callback runs once, with the
    seed, and adds nothing. *)
Example edit_and_revert :
  commits (mount "<p>A</p>") (window "<p>AB</p>" [(100%nat, "<p>A</p>"%string)])
    = [sA] /\
  stack_of (run (mount "<p>A</p>")
                (window "<p>AB</p>" [(100%nat, "<p>A</p>"%string)]))
    = seeded "<p>A</p>".
Proof. split; vm_compute; reflexivity. Qed.

(** ** The navigation guard *)

(** C3.  In every state the component reaches in which undo is available,
    [handleUndo] sets the guard; the run of the effect that follows clears
    it, cancels the pending timeout and schedules none, so [history] is as
    before, now and after any wait; a call of [onChange] with the restored
    snapshot changes nothing; and the next edit is recorded as usual: the
    guard suppressed one notification only. *)
Theorem guard_consumed_once (seed : string) (st : State) :
  reachable seed st -> canUndo st = true ->
  isNavigatingHistory (handleUndo st) = true /\
  step st Undo = useEffect (handleUndo st) /\
  isNavigatingHistory (step st Undo) = false /\
  debounceTimer (step st Undo) = None /\
  content (step st Undo) = get (history st) (historyIndex st - 1) /\
  history (step st Undo) = history st /\
  (forall n, history (run (step st Undo) (ticks n)) = history st /\
             commits (step st Undo) (ticks n) = []) /\
  (forall s, content (step st Undo) = Str s ->
             step (step st Undo) (Change s) = step st Undo) /\
  (forall s, content (step st Undo) <> Str s ->
             step (step st Undo) (Change s)
               = armed (Str s) (history st) (historyIndex st - 1)).
Proof.
  intros Hr Hu. pose proof (reachable_app_inv _ _ Hr) as Hinv.
  destruct (step_undo_on st Hu) as [E1 E2].
  split. { unfold handleUndo, canUndo in *. now rewrite Hu. }
  split; [exact E1|].
  rewrite (timer_cancelled st (inv_timer _ _ Hinv)) in E2.
  rewrite E2. fields. repeat split.
  - destruct (ticks_idle n _ (eq_refl : debounceTimer
      (mkState (get (history st) (historyIndex st - 1)) (history st)
               (historyIndex st - 1) false None false) = None)) as [-> _].
    reflexivity.
  - apply ticks_idle. reflexivity.
  - intros s Hs. now apply step_change_same.
  - intros s Hs. now rewrite step_change_armed.
Qed.

Lemma guard_consumed_once_witness :
  reachable "<p>A</p>" st_two /\ canUndo st_two = true /\
  isNavigatingHistory (step st_two Undo) = false /\
  debounceTimer (step st_two Undo) = None /\
  content (step st_two Undo) = sA /\
  history (run (step st_two Undo) (ticks 1000)) = [sA; sB].
Proof.
  assert (Hr : reachable "<p>A</p>" st_two)
    by (apply reachable_run, reach_mount).
  assert (Hu : canUndo st_two = true) by (vm_compute; reflexivity).
  destruct (guard_consumed_once "<p>A</p>" st_two Hr Hu)
    as (_ & _ & Hg & Ht & Hc & _ & Hn & _).
  split; [exact Hr|]. split; [exact Hu|]. split; [exact Hg|].
  split; [exact Ht|]. split; [rewrite Hc; vm_compute; reflexivity|].
  destruct (Hn 1000%nat) as [-> _]. vm_compute. reflexivity.
Defined.

(** ** Commit after a step back *)

(** C4.  From entries [A; B; C] with the cursor at 2, [stepBack] moves the
    cursor to 1 and hands out [B]; [commit D] with [D] other than [B] then
    gives entries [A; B; D] with the cursor at 2: [C] is gone.  In the
    component, from any state it reaches with this history and index, an
    undo, an edit to [D] and a wait of the debounce delay give the same
    stack. *)
Theorem commit_after_stepBack
  (A B C : JsVal) (d seed : string) (st : State) :
  Str d <> B ->
  stepBack (mkStack [A; B; C] 2) = (mkStack [A; B; C] 1, Some B) /\
  commit (Str d) (mkStack [A; B; C] 1) = mkStack [A; B; Str d] 2 /\
  (reachable seed st -> stack_of st = mkStack [A; B; C] 2 ->
   stack_of (run st (Undo :: Change d :: ticks DEBOUNCE_DELAY))
     = mkStack [A; B; Str d] 2).
Proof.
  intros Hd.
  assert (Hc : commit (Str d) (mkStack [A; B; C] 1) = mkStack [A; B; Str d] 2).
  { rewrite commit_in_range by (unfold in_range; cbn; lia).
    cbn [entries cursor]. change (get [A; B; C] 1) with B.
    rewrite strict_eq_neq by congruence. reflexivity. }
  split; [reflexivity|]. split; [exact Hc|].
  intros Hr Hk. pose proof (reachable_app_inv _ _ Hr) as Hinv.
  injection Hk as Hh Hi.
  assert (Hu : canUndo st = true) by (unfold canUndo; now rewrite Hi).
  destruct (step_undo_on st Hu) as [_ E].
  rewrite (timer_cancelled st (inv_timer _ _ Hinv)), Hh, Hi in E.
  change (get [A; B; C] (2 - 1)) with B in E.
  rewrite !run_cons, E, step_change_armed by (fields; congruence). fields.
  destruct (armed_fires (Str d) [A; B; C] (2 - 1)) as [-> _].
  exact Hc.
Qed.

Lemma commit_after_stepBack_witness :
  sD <> sB /\
  stack_of st_three = stack_abc /\
  stepBack stack_abc = (stack_abc_back, Some sB) /\
  commit sD stack_abc_back = mkStack [sA; sB; sD] 2 /\
  stack_of (run st_three (Undo :: Change "<p>AC</p>" :: ticks DEBOUNCE_DELAY))
    = mkStack [sA; sB; sD] 2.
Proof.
  assert (Hd : sD <> sB) by discriminate.
  assert (Hk : stack_of st_three = stack_abc) by (vm_compute; reflexivity).
  assert (Hr : reachable "<p>A</p>" st_three)
    by (apply reachable_run, reach_mount).
  destruct (commit_after_stepBack sA sB sC "<p>AC</p>" "<p>A</p>" st_three Hd)
    as (H1 & H2 & H3).
  split; [exact Hd|]. split; [exact Hk|]. split; [exact H1|].
  split; [exact H2|]. exact (H3 Hr Hk).
Defined.

(** ** Invariants of every run *)

(** C5.  After every sequence of [commit], [stepBack] and [stepForward]
    from the seeded stack, and in every state the component reaches from
    its mount by any events, no entry of the history equals the entry that
    follows it. *)
Theorem no_adjacent_duplicates
  (seed : string) (ops : list StackOp) (es : list Event) (i : Z) :
  0 <= i ->
  (i + 1 < alength (entries (run_ops (seeded seed) ops)) ->
   get (entries (run_ops (seeded seed) ops)) i
     <> get (entries (run_ops (seeded seed) ops)) (i + 1)) /\
  (i + 1 < alength (history (run (mount seed) es)) ->
   get (history (run (mount seed) es)) i
     <> get (history (run (mount seed) es)) (i + 1)).
Proof.
  intros Hi. split; intros Hlen.
  - apply adjacent_distinct_get; try assumption.
    apply (inv_distinct seed), run_ops_seeded_inv.
  - apply adjacent_distinct_get; try assumption.
    apply (inv_distinct seed (stack_of (run (mount seed) es))).
    apply inv_stack, run_mount_inv.
Qed.

Lemma no_adjacent_duplicates_witness :
  entries (run_ops (seeded "<p>A</p>") sample_ops) = [sA; sB; sA] /\
  history (run (mount "<p>A</p>") sample_events) = [sA; sB; sD] /\
  get (entries (run_ops (seeded "<p>A</p>") sample_ops)) 1
    <> get (entries (run_ops (seeded "<p>A</p>") sample_ops)) (1 + 1) /\
  get (history (run (mount "<p>A</p>") sample_events)) 1
    <> get (history (run (mount "<p>A</p>") sample_events)) (1 + 1).
Proof.
  split; [vm_compute; reflexivity|].
  split; [vm_compute; reflexivity|].
  destruct (no_adjacent_duplicates "<p>A</p>" sample_ops sample_events 1)
    as [H1 H2]; [lia|].
  split; [apply H1|apply H2]; vm_compute; reflexivity.
Defined.

(** C6.  After every sequence of [commit], [stepBack] and [stepForward]
    from the seeded stack, and in every state the component reaches from
    its mount, the entries are not empty, the cursor is between 0 and
    [length - 1], and [entries[cursor]] is a string, not [undefined]. *)
Theorem cursor_on_an_entry
  (seed : string) (ops : list StackOp) (es : list Event) :
  (entries (run_ops (seeded seed) ops) <> [] /\
   0 <= cursor (run_ops (seeded seed) ops)
     <= alength (entries (run_ops (seeded seed) ops)) - 1 /\
   exists s, get (entries (run_ops (seeded seed) ops))
                 (cursor (run_ops (seeded seed) ops)) = Str s) /\
  (history (run (mount seed) es) <> [] /\
   0 <= historyIndex (run (mount seed) es)
     <= alength (history (run (mount seed) es)) - 1 /\
   exists s, get (history (run (mount seed) es))
                 (historyIndex (run (mount seed) es)) = Str s).
Proof.
  split.
  - pose proof (run_ops_seeded_inv seed ops) as Hk.
    destruct (stack_inv_defined _ _ Hk) as [Hne Hs].
    repeat split; try assumption; apply (inv_range _ _ Hk).
  - pose proof (inv_stack _ _ (run_mount_inv seed es)) as Hk.
    destruct (stack_inv_defined _ _ Hk) as [Hne Hs].
    repeat split; try assumption; apply (inv_range _ _ Hk).
Qed.

(** ** Boundaries *)

(** C7.  [stepBack] with the cursor at 0 and [stepForward] with the cursor
    at the last index return the stack as it is and hand out no snapshot;
    [handleUndo] and [handleRedo] there return the whole component state
    as it is, and no effect runs.  The two queries are [cursor > 0] and
    [cursor < length - 1].  Every operation is a total function: array
    reads outside the bounds yield [undefined] and nothing throws. *)
Theorem boundaries_are_noops (k : Stack) (st : State) :
  (cursor k = 0 -> stepBack k = (k, None)) /\
  (cursor k = alength (entries k) - 1 -> stepForward k = (k, None)) /\
  canStepBack k = (cursor k >? 0) /\
  canStepForward k = (cursor k <? alength (entries k) - 1) /\
  (historyIndex st = 0 -> handleUndo st = st /\ step st Undo = st) /\
  (historyIndex st = alength (history st) - 1 ->
   handleRedo st = st /\ step st Redo = st) /\
  canUndo st = canStepBack (stack_of st) /\
  canRedo st = canStepForward (stack_of st).
Proof.
  repeat apply conj; try reflexivity.
  - intros Hc. unfold stepBack. rewrite Hc. reflexivity.
  - intros Hc. unfold stepForward. rewrite Hc, Z.ltb_irrefl. reflexivity.
  - intros Hc. split.
    + unfold handleUndo. rewrite Hc. reflexivity.
    + apply step_undo_off. unfold canUndo. rewrite Hc. reflexivity.
  - intros Hc. split.
    + unfold handleRedo. rewrite Hc, Z.ltb_irrefl. reflexivity.
    + apply step_redo_off. unfold canRedo. rewrite Hc. apply Z.ltb_irrefl.
Qed.

Lemma boundaries_are_noops_witness :
  stepBack (seeded "x") = (seeded "x", None) /\
  stepForward stack_abc = (stack_abc, None) /\
  step (mount "x") Undo = mount "x" /\
  step (mount "x") Redo = mount "x".
Proof.
  pose proof (boundaries_are_noops (seeded "x") (mount "x")) as Hx.
  pose proof (boundaries_are_noops stack_abc (mount "x")) as Habc.
  destruct Hx as (Hb & _ & _ & _ & Hu & Hr & _).
  destruct Habc as (_ & Hf & _).
  split; [apply Hb; reflexivity|].
  split; [apply Hf; reflexivity|].
  split; [apply Hu; reflexivity|apply Hr; reflexivity].
Defined.

(** ** Navigation leaves the entries alone *)

(** C8.  In every state, [handleUndo] and [handleRedo], alone and followed
    by the re-render and the effect, leave [history] as it is; so do
    [stepBack] and [stepForward] on the stack. *)
Theorem navigation_keeps_entries (st : State) (k : Stack) :
  history (handleUndo st) = history st /\
  history (step st Undo) = history st /\
  history (handleRedo st) = history st /\
  history (step st Redo) = history st /\
  entries (fst (stepBack k)) = entries k /\
  entries (fst (stepForward k)) = entries k.
Proof.
  assert (Hb : forall k', entries (fst (stepBack k')) = entries k')
    by (intros k'; unfold stepBack; now destruct (cursor k' >? 0)).
  assert (Hf : forall k', entries (fst (stepForward k')) = entries k')
    by (intros k'; unfold stepForward;
        now destruct (cursor k' <? alength (entries k') - 1)).
  repeat split; auto.
  - unfold handleUndo. now destruct (historyIndex st >? 0).
  - change (history (step st Undo)) with (entries (stack_of (step st Undo))).
    rewrite stack_of_undo. apply Hb.
  - unfold handleRedo.
    now destruct (historyIndex st <? alength (history st) - 1).
  - change (history (step st Redo)) with (entries (stack_of (step st Redo))).
    rewrite stack_of_redo. apply Hf.
Qed.

(** ** The seed stays *)

(** C9.  After every sequence of [commit], [stepBack] and [stepForward]
    from the seeded stack, and in every state the component reaches from
    its mount, [entries[0]] is the seed.  Stepping back [cursor] times
    puts the cursor on it.  Undo pressed until it is no longer available
    leaves the history as it is and the index at 0; it leaves the content
    equal to the seed when it was available at least once or no edit
    waited to be committed, and in any case once the debounce delay has
    passed. *)
Theorem first_entry_is_seed
  (seed : string) (ops : list StackOp) (es : list Event) :
  get (entries (run_ops (seeded seed) ops)) 0 = Str seed /\
  get (history (run (mount seed) es)) 0 = Str seed /\
  run_ops (run_ops (seeded seed) ops)
          (repeat StepBack (Z.to_nat (cursor (run_ops (seeded seed) ops))))
    = mkStack (entries (run_ops (seeded seed) ops)) 0 /\
  history (undo_to_start (run (mount seed) es))
    = history (run (mount seed) es) /\
  historyIndex (undo_to_start (run (mount seed) es)) = 0 /\
  (0 < historyIndex (run (mount seed) es) \/ quiescent (run (mount seed) es) ->
   content (undo_to_start (run (mount seed) es)) = Str seed) /\
  content (undo_to_start (run (mount seed) (es ++ ticks DEBOUNCE_DELAY)))
    = Str seed.
Proof.
  pose proof (run_ops_seeded_inv seed ops) as Hk.
  pose proof (run_mount_inv seed es) as Hst.
  split; [apply (inv_seed _ _ Hk)|].
  split; [apply (inv_seed _ _ (inv_stack _ _ Hst))|].
  split; [apply stepBack_all; [apply (inv_range _ _ Hk)|reflexivity]|].
  destruct (undo_all seed _ _ Hst eq_refl) as (H1 & H2 & H3).
  split; [exact H1|]. split; [exact H2|]. split; [exact H3|].
  destruct (undo_all seed _ _ (run_mount_inv seed (es ++ ticks DEBOUNCE_DELAY))
              eq_refl) as (_ & _ & H).
  apply H. right. rewrite run_app.
  apply (settles seed), reachable_run, reach_mount.
Qed.

Lemma first_entry_is_seed_witness :
  historyIndex (run (mount "<p>A</p>") sample_events) = 2 /\
  content (run (mount "<p>A</p>") sample_events) = sD /\
  content (undo_to_start (run (mount "<p>A</p>") sample_events)) = sA.
Proof.
  split; [vm_compute; reflexivity|].
  split; [vm_compute; reflexivity|].
  destruct (first_entry_is_seed "<p>A</p>" sample_ops sample_events)
    as (_ & _ & _ & _ & _ & H & _).
  apply H. left. vm_compute. reflexivity.
Defined.

(** ** Back and forth *)

(** Undo then redo, and redo then undo, on the stack and in the
    component. *)
Lemma undo_redo_steps (st : State) :
  in_range (stack_of st) ->
  (canStepBack (stack_of st) = true ->
   stepForward (fst (stepBack (stack_of st)))
     = (stack_of st, Some (get (history st) (historyIndex st))) /\
   stack_of (run st [Undo; Redo]) = stack_of st /\
   content (run st [Undo; Redo]) = get (history st) (historyIndex st)) /\
  (canStepForward (stack_of st) = true ->
   stepBack (fst (stepForward (stack_of st)))
     = (stack_of st, Some (get (history st) (historyIndex st))) /\
   stack_of (run st [Redo; Undo]) = stack_of st /\
   content (run st [Redo; Undo]) = get (history st) (historyIndex st)).
Proof.
  unfold in_range, canStepBack, canStepForward. fields. intros Hr.
  split; intros Hc.
  - assert (Hu : canUndo st = true) by exact Hc.
    destruct (step_undo_on st Hu) as [_ E1].
    assert (Hre : canRedo (step st Undo) = true).
    { rewrite E1. unfold canRedo; fields. apply Z.ltb_lt. lia. }
    destruct (step_redo_on _ Hre) as [_ E2].
    cbn [run fold_left]. rewrite E2, E1. fields.
    replace (historyIndex st - 1 + 1) with (historyIndex st) by lia.
    repeat split.
    unfold stepBack, stepForward. fields. rewrite Hc. fields. cbn [fst].
    fields.
    destruct (Z.ltb_spec (historyIndex st - 1) (alength (history st) - 1));
      [|lia].
    replace (historyIndex st - 1 + 1) with (historyIndex st) by lia.
    destruct st; reflexivity.
  - assert (Hu : canRedo st = true) by exact Hc.
    destruct (step_redo_on st Hu) as [_ E1].
    assert (Hre : canUndo (step st Redo) = true).
    { rewrite E1. unfold canUndo; fields. apply Z.gtb_lt. lia. }
    destruct (step_undo_on _ Hre) as [_ E2].
    cbn [run fold_left]. rewrite E2, E1. fields.
    replace (historyIndex st + 1 - 1) with (historyIndex st) by lia.
    repeat split.
    unfold stepBack, stepForward. fields. rewrite Hc. fields. cbn [fst].
    fields.
    destruct (Z.gtb_spec (historyIndex st + 1) 0); [|lia].
    replace (historyIndex st + 1 - 1) with (historyIndex st) by lia.
    destruct st; reflexivity.
Qed.

(** C10.  On a stack whose cursor is on an entry, [stepBack] followed by
    [stepForward] gives back the same entries and cursor, and hands out
    [entries[cursor]], whenever [canStepBack] holds; so does [stepForward]
    followed by [stepBack] whenever [canStepForward] holds.  In the
    component, undo followed by redo (and redo followed by undo) gives
    back [history] and [historyIndex] and leaves [content] equal to
    [history[historyIndex]], which is the content before when no edit
    waited to be committed. *)
Theorem back_and_forth (st : State) :
  in_range (stack_of st) ->
  (canStepBack (stack_of st) = true ->
   stepForward (fst (stepBack (stack_of st)))
     = (stack_of st, Some (get (entries (stack_of st)) (cursor (stack_of st))))
   /\ stack_of (run st [Undo; Redo]) = stack_of st
   /\ content (run st [Undo; Redo]) = get (history st) (historyIndex st)
   /\ (quiescent st -> content (run st [Undo; Redo]) = content st)) /\
  (canStepForward (stack_of st) = true ->
   stepBack (fst (stepForward (stack_of st)))
     = (stack_of st, Some (get (entries (stack_of st)) (cursor (stack_of st))))
   /\ stack_of (run st [Redo; Undo]) = stack_of st
   /\ content (run st [Redo; Undo]) = get (history st) (historyIndex st)
   /\ (quiescent st -> content (run st [Redo; Undo]) = content st)).
Proof.
  intros Hr. destruct (undo_redo_steps st Hr) as [Hb Hf].
  split; intros Hc.
  - destruct (Hb Hc) as (H1 & H2 & H3).
    repeat split; try assumption. intros Hq. now rewrite H3.
  - destruct (Hf Hc) as (H1 & H2 & H3).
    repeat split; try assumption. intros Hq. now rewrite H3.
Qed.

Lemma back_and_forth_witness :
  in_range (stack_of st_two) /\
  stack_of (run st_two [Undo; Redo]) = stack_of st_two /\
  content (run st_two [Undo; Redo]) = sB.
Proof.
  assert (Hr : in_range (stack_of st_two))
    by (vm_compute; split; discriminate).
  split; [exact Hr|].
  destruct (back_and_forth st_two Hr) as [H _].
  destruct H as (_ & H1 & H2 & _); [reflexivity|].
  split; [exact H1|]. rewrite H2. reflexivity.
Defined.

(** With an edit waiting to be committed, undo then redo brings back the
    entry under the cursor, not the edit. *)
Example undo_redo_drops_pending_edit :
  content (step st_two (Change "<p>ABC</p>")) = sC /\
  stack_of (run (step st_two (Change "<p>ABC</p>")) [Undo; Redo])
    = mkStack [sA; sB] 1 /\
  content (run (step st_two (Change "<p>ABC</p>")) [Undo; Redo]) = sB.
Proof. repeat split; vm_compute; reflexivity. Qed.

(** * Further properties of the component *)

(** ** Unmount *)

Lemma debounceTimer_runCleanup (st : State) :
  debounceTimer (runCleanup st)
    = if hasCleanup st then None else debounceTimer st.
Proof. unfold runCleanup. now destruct (hasCleanup st). Qed.

(** X1.  In every state the component reaches, unmounting cancels the
    pending timeout: nothing is committed afterwards, however long the
    wait, and the stack and the content stay as they were at the unmount
    (an edit not yet committed never reaches the history). *)
Theorem unmount_cancels_commit (seed : string) (es : list Event) (n : nat) :
  debounceTimer (unmount (run (mount seed) es)) = None /\
  commits (unmount (run (mount seed) es)) (ticks n) = [] /\
  stack_of (run (unmount (run (mount seed) es)) (ticks n))
    = stack_of (run (mount seed) es) /\
  content (run (unmount (run (mount seed) es)) (ticks n))
    = content (run (mount seed) es).
Proof.
  pose proof (run_mount_inv seed es) as Hinv.
  set (st := run (mount seed) es) in *.
  assert (Ht : debounceTimer (unmount st) = None).
  { unfold unmount. rewrite debounceTimer_runCleanup.
    apply timer_cancelled, (inv_timer _ _ Hinv). }
  destruct (ticks_idle n (unmount st) Ht) as [E1 E2].
  rewrite E1, E2. repeat split; try assumption;
    unfold unmount, runCleanup; destruct (hasCleanup st); reflexivity.
Qed.

(** ** The callback and the state it closes over *)

(** X2.  In every state the component reaches, a callback that runs was
    set by the last run of the effect: the snapshot it commits is the
    content at the time it runs, and the stack after it is [commit] of
    that content on the stack at that time. *)
Theorem callback_sees_current_state
  (seed : string) (es : list Event) (v : JsVal) :
  fired (run (mount seed) es) Tick = Some v ->
  v = content (run (mount seed) es) /\
  stack_of (step (run (mount seed) es) Tick)
    = commit (content (run (mount seed) es)) (stack_of (run (mount seed) es)).
Proof.
  pose proof (run_mount_inv seed es) as Hinv.
  set (st := run (mount seed) es) in *.
  pose proof (inv_timer _ _ Hinv) as Ht. unfold timer_ok in Ht.
  unfold fired. destruct (debounceTimer st) as [t|] eqn:Hp; [|discriminate].
  destruct Ht as (_ & Hcl & _).
  destruct (Nat.leb_spec (delay t) 1) as [Hle|Hgt]; [|discriminate].
  intros E. injection E as <-. split.
  - now rewrite Hcl.
  - cbn [step]. rewrite (tick_fire st t) by assumption.
    now apply stack_of_fire.
Qed.

Lemma callback_sees_current_state_witness :
  fired st_due Tick = Some sB /\
  sB = content st_due /\
  stack_of (step st_due Tick) = mkStack [sA; sB] 1.
Proof.
  unfold st_due.
  assert (Hf : fired (run (mount "<p>A</p>") (Change "<p>AB</p>" :: ticks 499))
                     Tick = Some sB) by (vm_compute; reflexivity).
  split; [exact Hf|].
  destruct (callback_sees_current_state "<p>A</p>"
              (Change "<p>AB</p>" :: ticks 499) sB Hf) as [H1 H2].
  split; [exact H1|]. vm_compute. reflexivity.
Defined.

(** ** A commit and the two buttons *)

(** The stack after a millisecond is the stack before, or [commit] of the
    content on it. *)
Lemma tick_stack (seed : string) (st : State) :
  app_inv seed st ->
  stack_of (step st Tick) = stack_of st \/
  stack_of (step st Tick) = commit (content st) (stack_of st).
Proof.
  intros Hinv. pose proof (inv_timer _ _ Hinv) as Ht. unfold timer_ok in Ht.
  cbn [step]. destruct (debounceTimer st) as [t|] eqn:Hp;
    [|left; now rewrite tick_idle].
  destruct Ht as (_ & Hcl & _).
  destruct (Nat.leb_spec (delay t) 1) as [Hle|Hgt].
  - right. rewrite (tick_fire st t) by assumption. now apply stack_of_fire.
  - left. now rewrite (tick_wait st t) by assumption.
Qed.

Lemma commit_new_entry (s : JsVal) (k : Stack) :
  in_range k -> s <> get (entries k) (cursor k) ->
  commit s k = mkStack (push (firstn (Z.to_nat (cursor k + 1)) (entries k)) s)
                       (cursor k + 1).
Proof.
  intros Hk Hs. rewrite commit_in_range by assumption.
  now rewrite strict_eq_neq by congruence.
Qed.

(** X3.  A commit that adds an entry leaves nothing to redo: on a stack
    whose cursor is on an entry, after [commit s] with [s] other than
    [entries[cursor]] the new entry is the last one, [canStepForward] is
    false and [canStepBack] is true.  In the component, whenever the
    passing of time changes the stack, redo is unavailable and undo is
    available afterwards. *)
Theorem commit_clears_redo
  (k : Stack) (s : JsVal) (seed : string) (es : list Event) :
  (in_range k -> s <> get (entries k) (cursor k) ->
   alength (entries (commit s k)) = cursor k + 2 /\
   canStepForward (commit s k) = false /\
   canStepBack (commit s k) = true) /\
  (stack_of (step (run (mount seed) es) Tick) <> stack_of (run (mount seed) es)
   -> canRedo (step (run (mount seed) es) Tick) = false /\
      canUndo (step (run (mount seed) es) Tick) = true).
Proof.
  assert (Hstack : forall k' s', in_range k' ->
            s' <> get (entries k') (cursor k') ->
            alength (entries (commit s' k')) = cursor k' + 2 /\
            canStepForward (commit s' k') = false /\
            canStepBack (commit s' k') = true).
  { intros k' s' Hk Hs. rewrite commit_new_entry by assumption.
    unfold canStepForward, canStepBack, in_range in *.
    cbn [entries cursor]. rewrite alength_push, alength_firstn by lia.
    repeat split; [lia|apply Z.ltb_ge; lia|apply Z.gtb_lt; lia]. }
  split; [apply Hstack|].
  pose proof (run_mount_inv seed es) as Hinv.
  set (st := run (mount seed) es) in *. intros Hne.
  destruct (tick_stack seed st Hinv) as [E|E]; [congruence|].
  pose proof (inv_range _ _ (inv_stack _ _ Hinv)) as Hr.
  assert (Hs : content st <> get (entries (stack_of st)) (cursor (stack_of st))).
  { intros Heq. apply Hne. rewrite E, commit_in_range by assumption.
    now rewrite <- Heq, strict_eq_refl. }
  destruct (Hstack (stack_of st) (content st) Hr Hs) as (_ & Hf & Hb).
  rewrite <- E in Hf, Hb. split; assumption.
Qed.

Lemma commit_clears_redo_witness :
  canStepForward stack_abc_back = true /\
  canStepForward (commit sD stack_abc_back) = false /\
  canStepBack (commit sD stack_abc_back) = true /\
  canRedo (step st_due Tick) = false /\
  canUndo (step st_due Tick) = true.
Proof.
  unfold st_due.
  destruct (commit_clears_redo stack_abc_back sD "<p>A</p>"
              (Change "<p>AB</p>" :: ticks 499)) as [H1 H2].
  split; [reflexivity|].
  destruct H1 as (_ & Hf & Hb);
    [unfold in_range; cbn; lia|discriminate|].
  split; [exact Hf|]. split; [exact Hb|].
  apply H2. vm_compute. discriminate.
Defined.

(** X4.  In every state the component reaches, the undo button is
    enabled exactly when [handleUndo] changes the state, and the redo
    button exactly when [handleRedo] does; an enabled button moves the
    index by one, to an index of the array. *)
Theorem buttons_match_handlers (seed : string) (es : list Event) :
  (canUndo (run (mount seed) es) = true
   <-> step (run (mount seed) es) Undo <> run (mount seed) es) /\
  (canRedo (run (mount seed) es) = true
   <-> step (run (mount seed) es) Redo <> run (mount seed) es) /\
  (canUndo (run (mount seed) es) = true ->
   historyIndex (step (run (mount seed) es) Undo)
     = historyIndex (run (mount seed) es) - 1 /\
   0 <= historyIndex (step (run (mount seed) es) Undo)
     < alength (history (run (mount seed) es))) /\
  (canRedo (run (mount seed) es) = true ->
   historyIndex (step (run (mount seed) es) Redo)
     = historyIndex (run (mount seed) es) + 1 /\
   0 <= historyIndex (step (run (mount seed) es) Redo)
     < alength (history (run (mount seed) es))).
Proof.
  pose proof (inv_range _ _ (inv_stack _ _ (run_mount_inv seed es))) as Hrg.
  set (st := run (mount seed) es) in *.
  unfold in_range in Hrg. cbn [stack_of entries cursor] in Hrg.
  assert (Hu : canUndo st = true ->
               historyIndex (step st Undo) = historyIndex st - 1)
    by (intros Hc; destruct (step_undo_on st Hc) as [_ ->]; reflexivity).
  assert (Hr : canRedo st = true ->
               historyIndex (step st Redo) = historyIndex st + 1)
    by (intros Hc; destruct (step_redo_on st Hc) as [_ ->]; reflexivity).
  repeat apply conj.
  - intros Hc E. specialize (Hu Hc). rewrite E in Hu. lia.
  - intros Hne. destruct (canUndo st) eqn:Hc; [reflexivity|].
    now rewrite step_undo_off in Hne.
  - intros Hc E. specialize (Hr Hc). rewrite E in Hr. lia.
  - intros Hne. destruct (canRedo st) eqn:Hc; [reflexivity|].
    now rewrite step_redo_off in Hne.
  - intros Hc. rewrite (Hu Hc). unfold canUndo in Hc.
    apply Z.gtb_lt in Hc. lia.
  - intros Hc. rewrite (Hr Hc). unfold canRedo in Hc.
    apply Z.ltb_lt in Hc. lia.
Qed.

Lemma buttons_match_handlers_witness :
  canUndo (run (mount "<p>A</p>") undo_events) = false /\
  canRedo (run (mount "<p>A</p>") undo_events) = true /\
  step (run (mount "<p>A</p>") undo_events) Redo
    <> run (mount "<p>A</p>") undo_events /\
  historyIndex (step (run (mount "<p>A</p>") undo_events) Redo) = 1.
Proof.
  destruct (buttons_match_handlers "<p>A</p>" undo_events)
    as (_ & [H2 _] & _ & H4).
  assert (Hc : canRedo (run (mount "<p>A</p>") undo_events) = true)
    by (vm_compute; reflexivity).
  split; [vm_compute; reflexivity|]. split; [exact Hc|].
  split; [exact (H2 Hc)|].
  destruct (H4 Hc) as [-> _]. vm_compute. reflexivity.
Defined.

(** ** Commit on the stack *)

(** X5.  On a stack whose cursor is on an entry, [commit] never touches
    the entries up to and including the cursor, adds at most one entry,
    and moves the cursor forward by at most one. *)
Theorem commit_keeps_prefix (k : Stack) (s : JsVal) (i : Z) :
  in_range k -> 0 <= i <= cursor k ->
  get (entries (commit s k)) i = get (entries k) i /\
  alength (entries (commit s k)) <= alength (entries k) + 1 /\
  cursor k <= cursor (commit s k) <= cursor k + 1.
Proof.
  intros Hk Hi. rewrite commit_in_range by assumption.
  unfold in_range in Hk.
  destruct (strict_eq (get (entries k) (cursor k)) s).
  - repeat split; lia.
  - cbn [entries cursor].
    rewrite alength_push, alength_firstn by lia.
    rewrite get_push_old by (rewrite alength_firstn; lia).
    rewrite get_firstn by lia. repeat split; lia.
Qed.

Lemma commit_keeps_prefix_witness :
  get (entries (commit sD stack_abc_back)) 1 = sB /\
  alength (entries (commit sD stack_abc_back)) <= 3 + 1 /\
  1 <= cursor (commit sD stack_abc_back) <= 1 + 1.
Proof.
  apply (commit_keeps_prefix stack_abc_back sD 1);
    [unfold in_range|]; cbn; lia.
Defined.

Lemma commit_twice (k : Stack) (s : JsVal) :
  commit s (commit s k) = commit s k.
Proof.
  unfold commit at 2 3.
  destruct (debounced (mkClosure s (entries k) (cursor k)))
    as [[h i]|] eqn:Hd.
  - unfold commit. cbn [entries cursor].
    pose proof (debounced_again _ _ _ Hd) as Hagain.
    cbn [c_content] in Hagain. now rewrite Hagain.
  - unfold commit. now rewrite Hd.
Qed.

(** X6.  On every stack, [commit] of the same snapshot twice is [commit]
    of it once: a second run of the callback finds the snapshot under the
    cursor and adds nothing. *)
Theorem commit_idempotent (k : Stack) (s : JsVal) :
  commit s (commit s k) = commit s k.
Proof. apply commit_twice. Qed.

(** ** Time alone *)

Lemma content_tick (st : State) : content (step st Tick) = content st.
Proof.
  cbn [step]. unfold tick. destruct (debounceTimer st) as [t|]; [|reflexivity].
  destruct (delay t <=? 1)%nat; [|reflexivity].
  unfold fire. destruct (debounced (captured t)) as [[h i]|]; [|reflexivity].
  destruct (isNavigatingHistory st) eqn:Hg.
  - rewrite useEffect_navigating by (destruct st; assumption). reflexivity.
  - rewrite useEffect_editing by (destruct st; assumption). reflexivity.
Qed.

Lemma content_ticks (n : nat) (st : State) :
  content (run st (ticks n)) = content st.
Proof.
  revert st. induction n as [|n IH]; intros st; [reflexivity|].
  unfold ticks in *. cbn [repeat]. now rewrite run_cons, IH, content_tick.
Qed.

(** While only time passes, the stack is the one at the start or [commit]
    of the content on it. *)
Lemma ticks_stack (seed : string) (n : nat) (st : State) :
  app_inv seed st ->
  stack_of (run st (ticks n)) = stack_of st \/
  stack_of (run st (ticks n)) = commit (content st) (stack_of st).
Proof.
  intros Hinv. induction n as [|n IH]; [now left|].
  replace (ticks (S n)) with (ticks n ++ [Tick])%list.
  2:{ unfold ticks. change [Tick] with (repeat Tick 1).
      rewrite <- repeat_app. f_equal. lia. }
  rewrite run_app. change (run (run st (ticks n)) [Tick])
    with (step (run st (ticks n)) Tick).
  pose proof (app_inv_run seed (ticks n) st Hinv) as Hinv'.
  destruct (tick_stack seed _ Hinv') as [E|E]; rewrite E.
  - exact IH.
  - rewrite content_ticks. right.
    destruct IH as [-> | ->]; [reflexivity|apply commit_twice].
Qed.

(** Every millisecond brings the component closer to having no timeout
    pending. *)
Lemma settle_time_tick (seed : string) (st : State) :
  app_inv seed st ->
  (settle_time (step st Tick) <= settle_time st - 1)%nat.
Proof.
  intros Hinv. pose proof (inv_timer _ _ Hinv) as Ht. unfold timer_ok in Ht.
  pose proof (inv_guard _ _ Hinv) as Hg.
  cbn [step]. unfold settle_time at 2.
  destruct (debounceTimer st) as [t|] eqn:Hp.
  2:{ rewrite tick_idle by assumption. unfold settle_time. rewrite Hp. lia. }
  destruct Ht as (_ & Hcl & Hd).
  destruct (Nat.leb_spec (delay t) 1) as [Hle|Hgt].
  - rewrite (tick_fire st t) by assumption. unfold fire. rewrite Hcl.
    destruct (debounced (closure_of st)) as [[h i]|] eqn:Hdeb.
    + pose proof (debounced_again _ _ _ Hdeb) as Hag.
      unfold closure_of in Hag. cbn [c_content] in Hag.
      rewrite useEffect_editing by (destruct st; assumption).
      unfold settle_time. fields.
      change (closure_of (setHistoryIndex i (setHistory h (setTimer None st))))
        with (mkClosure (content st) h i).
      rewrite Hag. lia.
    + unfold settle_time. fields. lia.
  - rewrite (tick_wait st t) by assumption. unfold settle_time. fields.
    destruct (debounced (captured t)); lia.
Qed.

Lemma settle_time_ticks (seed : string) (n : nat) (st : State) :
  app_inv seed st ->
  (settle_time (run st (ticks n)) <= settle_time st - n)%nat.
Proof.
  revert st. induction n as [|n IH]; intros st Hinv; [cbn; lia|].
  unfold ticks in *. cbn [repeat]. rewrite run_cons.
  pose proof (IH (step st Tick) (app_inv_step _ _ Tick Hinv)).
  pose proof (settle_time_tick seed st Hinv). lia.
Qed.

Lemma settle_time_bound (seed : string) (st : State) :
  app_inv seed st -> (settle_time st <= DEBOUNCE_DELAY + DEBOUNCE_DELAY)%nat.
Proof.
  intros Hinv. pose proof (inv_timer _ _ Hinv) as Ht. unfold timer_ok in Ht.
  unfold settle_time. destruct (debounceTimer st) as [t|]; [|lia].
  destruct Ht as (_ & _ & Hd). destruct (debounced (captured t)); lia.
Qed.

Lemma settle_time_zero (seed : string) (st : State) :
  app_inv seed st -> settle_time st = 0%nat -> debounceTimer st = None.
Proof.
  intros Hinv. pose proof (inv_timer _ _ Hinv) as Ht. unfold timer_ok in Ht.
  unfold settle_time. destruct (debounceTimer st) as [t|]; [|reflexivity].
  destruct Ht as (_ & _ & Hd). lia.
Qed.

(** X7.  From every state the component reaches, when nothing but time
    passes, after two debounce delays no timeout is pending, the content
    is as it was, and the stack is [commit] of that content on the stack
    it started from: a pending edit is committed once, and the component
    comes to rest. *)
Theorem comes_to_rest (seed : string) (es : list Event) (n : nat) :
  debounceTimer
    (run (mount seed) (es ++ ticks (DEBOUNCE_DELAY + DEBOUNCE_DELAY + n)))
    = None /\
  content (run (mount seed) (es ++ ticks (DEBOUNCE_DELAY + DEBOUNCE_DELAY + n)))
    = content (run (mount seed) es) /\
  stack_of (run (mount seed) (es ++ ticks (DEBOUNCE_DELAY + DEBOUNCE_DELAY + n)))
    = commit (content (run (mount seed) es)) (stack_of (run (mount seed) es)).
Proof.
  rewrite run_app.
  pose proof (run_mount_inv seed es) as Hinv.
  assert (Hr : reachable seed (run (mount seed) es))
    by apply reachable_run, reach_mount.
  set (st := run (mount seed) es) in *.
  set (m := (DEBOUNCE_DELAY + DEBOUNCE_DELAY + n)%nat).
  pose proof (app_inv_run seed (ticks m) st Hinv) as Hinv'.
  assert (Hidle : debounceTimer (run st (ticks m)) = None).
  { apply (settle_time_zero seed); [exact Hinv'|].
    pose proof (settle_time_ticks seed m st Hinv).
    pose proof (settle_time_bound seed st Hinv). subst m. lia. }
  split; [exact Hidle|]. split; [apply content_ticks|].
  destruct (ticks_stack seed m st Hinv) as [E|E]; [|exact E].
  assert (Hq : quiescent (run st (ticks m)))
    by (apply (idle_quiescent seed); [now apply reachable_run|exact Hidle]).
  unfold quiescent in Hq. rewrite content_ticks in Hq.
  rewrite E. symmetry.
  rewrite commit_in_range by apply (inv_range _ _ (inv_stack _ _ Hinv)).
  change (history (run st (ticks m)))
    with (entries (stack_of (run st (ticks m)))) in Hq.
  change (historyIndex (run st (ticks m)))
    with (cursor (stack_of (run st (ticks m)))) in Hq.
  rewrite E in Hq. now rewrite <- Hq, strict_eq_refl.
Qed.

(** ** Snapshots are strings *)

(** X8.  In every state the component reaches, the content and every
    entry of the history are strings, and the entries that [handleUndo]
    and [handleRedo] read when their guards hold are inside the array:
    [setContent] is never given [undefined]. *)
Theorem no_undefined_snapshots (seed : string) (es : list Event) :
  is_string (content (run (mount seed) es)) = true /\
  forallb is_string (history (run (mount seed) es)) = true /\
  (canUndo (run (mount seed) es) = true ->
   is_string (get (history (run (mount seed) es))
                  (historyIndex (run (mount seed) es) - 1)) = true) /\
  (canRedo (run (mount seed) es) = true ->
   is_string (get (history (run (mount seed) es))
                  (historyIndex (run (mount seed) es) + 1)) = true).
Proof.
  pose proof (run_mount_inv seed es) as Hinv.
  set (st := run (mount seed) es) in *.
  destruct (inv_stack _ _ Hinv) as [Hr _ _ Hf].
  unfold in_range in Hr. fields.
  split; [apply (inv_content _ _ Hinv)|]. split; [exact Hf|].
  split; intros Hc.
  - unfold canUndo in Hc. apply Z.gtb_lt in Hc.
    apply forallb_get; [exact Hf|lia].
  - unfold canRedo in Hc. apply Z.ltb_lt in Hc.
    apply forallb_get; [exact Hf|lia].
Qed.

Lemma no_undefined_snapshots_witness :
  canUndo st_two = true /\
  is_string (get (history st_two) (historyIndex st_two - 1)) = true.
Proof.
  unfold st_two.
  destruct (no_undefined_snapshots "<p>A</p>" (Change "<p>AB</p>" :: ticks 500))
    as (_ & _ & H & _).
  assert (Hc : canUndo (run (mount "<p>A</p>")
                            (Change "<p>AB</p>" :: ticks 500)) = true)
    by (vm_compute; reflexivity).
  split; [exact Hc|exact (H Hc)].
Defined.

(** ** The size of the history *)

Lemma pending_size_ge (st : State) : alength (history st) <= pending_size st.
Proof.
  unfold pending_size.
  destruct (strict_eq (get (history st) (historyIndex st)) (content st)); lia.
Qed.

Lemma pending_size_le (st : State) :
  pending_size st <= alength (history st) + 1.
Proof.
  unfold pending_size.
  destruct (strict_eq (get (history st) (historyIndex st)) (content st)); lia.
Qed.

Lemma get_push_firstn (h : list JsVal) (i : Z) (c : JsVal) :
  0 <= i < alength h ->
  get (push (firstn (Z.to_nat (i + 1)) h) c) (i + 1) = c.
Proof.
  intros Hi.
  replace (get (push (firstn (Z.to_nat (i + 1)) h) c) (i + 1))
    with (get (push (firstn (Z.to_nat (i + 1)) h) c)
              (alength (firstn (Z.to_nat (i + 1)) h)))
    by (now rewrite alength_firstn by lia).
  apply get_push_new.
Qed.

(** Only an edit can make room for one more entry. *)
Lemma pending_size_step (seed : string) (st : State) (e : Event) :
  app_inv seed st ->
  pending_size (step st e) <= pending_size st + (if is_change e then 1 else 0).
Proof.
  intros Hinv. pose proof Hinv as [[Hrg _ _ _] _ Hg Ht].
  unfold in_range in Hrg; fields. destruct e as [s| | |]; cbn [is_change].
  - destruct (strict_eq_spec (content st) (Str s)) as [Heq|Hne].
    + rewrite step_change_same by assumption. lia.
    + rewrite step_change_new by assumption.
      pose proof (pending_size_ge st).
      match goal with |- pending_size ?x <= _ =>
        pose proof (pending_size_le x) as Hle end.
      fields. lia.
  - destruct (canUndo st) eqn:Hu; [|rewrite step_undo_off by assumption; lia].
    destruct (step_undo_on st Hu) as [_ ->].
    pose proof (pending_size_ge st).
    unfold pending_size at 1. fields. rewrite strict_eq_refl. lia.
  - destruct (canRedo st) eqn:Hu; [|rewrite step_redo_off by assumption; lia].
    destruct (step_redo_on st Hu) as [_ ->].
    pose proof (pending_size_ge st).
    unfold pending_size at 1. fields. rewrite strict_eq_refl. lia.
  - cbn [step]. destruct (debounceTimer st) as [t|] eqn:Hp;
      [|rewrite tick_idle by assumption; lia].
    destruct (Nat.leb_spec (delay t) 1) as [Hle|Hgt].
    + rewrite (tick_fire st t) by assumption.
      unfold timer_ok in Ht. rewrite Hp in Ht. destruct Ht as (_ & Hcl & _).
      unfold fire. rewrite Hcl. unfold closure_of.
      rewrite debounced_in_range by lia.
      unfold pending_size at 2.
      destruct (strict_eq (get (history st) (historyIndex st)) (content st))
        eqn:Heq.
      * unfold pending_size. fields. rewrite Heq. lia.
      * rewrite useEffect_editing by (destruct st; assumption).
        unfold pending_size. fields.
        rewrite get_push_firstn by lia.
        rewrite strict_eq_refl, alength_push, alength_firstn by lia. lia.
    + rewrite (tick_wait st t) by assumption.
      unfold pending_size. fields. lia.
Qed.

Lemma edits_cons (e : Event) (es : list Event) :
  Z.of_nat (edits (e :: es))
    = (if is_change e then 1 else 0) + Z.of_nat (edits es).
Proof.
  unfold edits. cbn [filter]. destruct (is_change e); cbn [List.length]; lia.
Qed.

Lemma pending_size_run (seed : string) (es : list Event) (st : State) :
  app_inv seed st ->
  pending_size (run st es) <= pending_size st + Z.of_nat (edits es).
Proof.
  revert st. induction es as [|e es IH]; intros st Hinv.
  - unfold edits. cbn. lia.
  - rewrite run_cons, edits_cons.
    pose proof (IH (step st e) (app_inv_step _ _ e Hinv)).
    pose proof (pending_size_step seed st e Hinv). lia.
Qed.

(** X9.  After any events, the history holds at most one entry more than
    there were calls of [onChange]: undo, redo and the passing of time
    never add an entry on their own, and an edit adds at most one. *)
Theorem history_growth_bound (seed : string) (es : list Event) :
  alength (history (run (mount seed) es)) <= 1 + Z.of_nat (edits es).
Proof.
  pose proof (pending_size_run seed es (mount seed) (app_inv_mount seed)) as H.
  pose proof (pending_size_ge (run (mount seed) es)).
  assert (E : pending_size (mount seed) = 1).
  { unfold mount. rewrite useEffect_editing by reflexivity.
    unfold pending_size. fields. cbn. now rewrite String.eqb_refl. }
  lia.
Qed.

(** ** Redo to the end *)

Lemma redo_all (seed : string) (n : nat) (st : State) :
  app_inv seed st ->
  n = Z.to_nat (alength (history st) - 1 - historyIndex st) ->
  history (run st (repeat Redo n)) = history st /\
  historyIndex (run st (repeat Redo n)) = alength (history st) - 1 /\
  (canRedo st = true ->
   content (run st (repeat Redo n))
     = get (history st) (alength (history st) - 1)).
Proof.
  revert st. induction n as [|n IH]; intros st Hinv Hn.
  - pose proof (inv_range _ _ (inv_stack _ _ Hinv)) as Hr.
    unfold in_range in Hr. fields. cbn. repeat split; [lia|].
    unfold canRedo. intros Hc. apply Z.ltb_lt in Hc. lia.
  - assert (Hu : canRedo st = true) by (unfold canRedo; apply Z.ltb_lt; lia).
    pose proof (app_inv_step seed st Redo Hinv) as Hinv'.
    destruct (step_redo_on st Hu) as [_ E].
    cbn [repeat]. rewrite !run_cons.
    destruct (IH (step st Redo) Hinv') as (Hh & Hi & Hc).
    { rewrite E. fields. lia. }
    assert (Hhist : history (step st Redo) = history st)
      by (rewrite E; reflexivity).
    rewrite Hhist in Hh, Hi, Hc.
    split; [|split].
    + exact Hh.
    + exact Hi.
    + intros _. destruct n as [|n'].
      * cbn [repeat run fold_left]. rewrite E. fields. f_equal. lia.
      * apply Hc. rewrite E. unfold canRedo. fields. apply Z.ltb_lt. lia.
Qed.

(** X10.  From every state the component reaches, redo pressed until it
    is no longer available leaves the history as it is, puts the index on
    the last entry and, when it was available at least once, leaves the
    content equal to that entry. *)
Theorem redo_reaches_last (seed : string) (es : list Event) :
  history (redo_to_end (run (mount seed) es)) = history (run (mount seed) es) /\
  historyIndex (redo_to_end (run (mount seed) es))
    = alength (history (run (mount seed) es)) - 1 /\
  canRedo (redo_to_end (run (mount seed) es)) = false /\
  (canRedo (run (mount seed) es) = true ->
   content (redo_to_end (run (mount seed) es))
     = get (history (run (mount seed) es))
           (alength (history (run (mount seed) es)) - 1)).
Proof.
  pose proof (run_mount_inv seed es) as Hinv.
  set (st := run (mount seed) es) in *.
  destruct (redo_all seed _ st Hinv eq_refl) as (H1 & H2 & H3).
  unfold redo_to_end. repeat split; try assumption.
  unfold canRedo. rewrite H1, H2. apply Z.ltb_irrefl.
Qed.

Lemma redo_reaches_last_witness :
  canRedo (run st_three [Undo; Undo]) = true /\
  content (run st_three [Undo; Undo]) = sA /\
  content (redo_to_end (run st_three [Undo; Undo])) = sC.
Proof.
  unfold st_three. rewrite <- run_app.
  destruct (redo_reaches_last "<p>A</p>"
    (((Change "<p>AB</p>" :: ticks 500) ++ Change "<p>ABC</p>" :: ticks 500)
     ++ [Undo; Undo])) as (_ & _ & _ & H).
  split; [vm_compute; reflexivity|].
  split; [vm_compute; reflexivity|].
  rewrite H; vm_compute; reflexivity.
Defined.

(** ** The guard after a redo *)

(** X11.  In every state the component reaches in which redo is
    available, [handleRedo] sets the guard; the run of the effect that
    follows clears it, cancels the pending timeout and schedules none;
    the content is the next entry, and the history stays as it is, now
    and after any wait, with no callback run. *)
Theorem guard_consumed_after_redo (seed : string) (st : State) :
  reachable seed st -> canRedo st = true ->
  isNavigatingHistory (handleRedo st) = true /\
  step st Redo = useEffect (handleRedo st) /\
  isNavigatingHistory (step st Redo) = false /\
  debounceTimer (step st Redo) = None /\
  content (step st Redo) = get (history st) (historyIndex st + 1) /\
  (forall n, history (run (step st Redo) (ticks n)) = history st /\
             historyIndex (run (step st Redo) (ticks n)) = historyIndex st + 1
             /\ commits (step st Redo) (ticks n) = []).
Proof.
  intros Hr Hu. pose proof (reachable_app_inv _ _ Hr) as Hinv.
  destruct (step_redo_on st Hu) as [E1 E2].
  split. { unfold handleRedo, canRedo in *. now rewrite Hu. }
  split; [exact E1|].
  rewrite (timer_cancelled st (inv_timer _ _ Hinv)) in E2.
  rewrite E2. fields. repeat split.
  - destruct (ticks_idle n _ (eq_refl : debounceTimer
      (mkState (get (history st) (historyIndex st + 1)) (history st)
               (historyIndex st + 1) false None false) = None)) as [-> _].
    reflexivity.
  - destruct (ticks_idle n _ (eq_refl : debounceTimer
      (mkState (get (history st) (historyIndex st + 1)) (history st)
               (historyIndex st + 1) false None false) = None)) as [-> _].
    reflexivity.
  - apply ticks_idle. reflexivity.
Qed.

Lemma guard_consumed_after_redo_witness :
  reachable "<p>A</p>" (step st_two Undo) /\
  canRedo (step st_two Undo) = true /\
  debounceTimer (step (step st_two Undo) Redo) = None /\
  content (step (step st_two Undo) Redo) = sB /\
  history (run (step (step st_two Undo) Redo) (ticks 1000)) = [sA; sB].
Proof.
  assert (Hr : reachable "<p>A</p>" (step st_two Undo))
    by (apply reach_step, reachable_run, reach_mount).
  assert (Hu : canRedo (step st_two Undo) = true) by (vm_compute; reflexivity).
  destruct (guard_consumed_after_redo "<p>A</p>" (step st_two Undo) Hr Hu)
    as (_ & _ & _ & Ht & Hc & Hn).
  split; [exact Hr|]. split; [exact Hu|]. split; [exact Ht|].
  split; [rewrite Hc; vm_compute; reflexivity|].
  destruct (Hn 1000%nat) as [-> _]. vm_compute. reflexivity.
Defined.

(** ** No edit is swallowed *)

(** X12.  In every state the component reaches, the guard is clear, so
    an edit that changes the content always starts the 500 ms timeout
    over the new content; when nothing else happens for 500 ms, the
    stack becomes [commit] of the edit on the stack at the edit. *)
Theorem no_edit_swallowed (seed : string) (es : list Event) (s : string) :
  isNavigatingHistory (run (mount seed) es) = false /\
  (content (run (mount seed) es) <> Str s ->
   debounceTimer (step (run (mount seed) es) (Change s))
     = Some (mkTimer DEBOUNCE_DELAY
               (mkClosure (Str s) (history (run (mount seed) es))
                          (historyIndex (run (mount seed) es)))) /\
   stack_of (run (mount seed) (es ++ Change s :: ticks DEBOUNCE_DELAY))
     = commit (Str s) (stack_of (run (mount seed) es))).
Proof.
  pose proof (run_mount_inv seed es) as Hinv.
  rewrite run_app. set (st := run (mount seed) es) in *.
  pose proof (inv_guard _ _ Hinv) as Hg.
  split; [exact Hg|]. intros Hne.
  rewrite run_cons, step_change_armed by assumption.
  split; [reflexivity|].
  now destruct (armed_fires (Str s) (history st) (historyIndex st)) as [-> _].
Qed.

Lemma no_edit_swallowed_witness :
  content (run (mount "<p>A</p>") undo_events) <> sD /\
  stack_of (run (mount "<p>A</p>")
                (undo_events ++ Change "<p>AC</p>" :: ticks DEBOUNCE_DELAY))
    = mkStack [sA; sD] 1.
Proof.
  destruct (no_edit_swallowed "<p>A</p>" undo_events "<p>AC</p>") as [_ H].
  assert (Hne : content (run (mount "<p>A</p>") undo_events) <> sD)
    by (vm_compute; discriminate).
  split; [exact Hne|].
  destruct (H Hne) as [_ H2]. rewrite H2. vm_compute. reflexivity.
Defined.

(** * The copied indicators *)

Lemma resets_now (rs : list nat) :
  Forall (fun r => (1 <= r)%nat) rs ->
  existsb (fun r => (r <=? 0)%nat) rs = false /\
  map (fun r => (r - 0)%nat) (filter (fun r => (0 <? r)%nat) rs) = rs.
Proof.
  induction 1 as [|r rs Hr _ [IH1 IH2]]; [now split|].
  cbn [existsb filter].
  destruct (Nat.leb_spec r 0) as [H0|_]; [lia|].
  destruct (Nat.ltb_spec 0 r) as [_|H0]; [|lia].
  cbn [map orb]. rewrite IH1, IH2, Nat.sub_0_r. now split.
Qed.

Lemma resets_after_tick (rs : list nat) :
  Forall (fun r => (1 <= r)%nat)
         (map Nat.pred (filter (fun r => (1 <? r)%nat) rs)).
Proof.
  induction rs as [|r rs IH]; [constructor|].
  cbn [filter]. destruct (Nat.ltb_spec 1 r); [|exact IH].
  cbn [map]. constructor; [lia|exact IH].
Qed.

Lemma resets_left (n : nat) (rs : list nat) :
  map (fun r => (r - n)%nat)
      (filter (fun r => (n <? r)%nat)
              (map Nat.pred (filter (fun r => (1 <? r)%nat) rs)))
  = map (fun r => (r - S n)%nat) (filter (fun r => (S n <? r)%nat) rs).
Proof.
  induction rs as [|r rs IH]; [reflexivity|].
  cbn [filter]. destruct (Nat.ltb_spec 1 r) as [H1|H1].
  - cbn [map filter].
    destruct (Nat.ltb_spec n (Nat.pred r)), (Nat.ltb_spec (S n) r);
      try lia; cbn [map]; rewrite IH; [f_equal; lia|reflexivity].
  - destruct (Nat.ltb_spec (S n) r); [lia|exact IH].
Qed.

Lemma resets_due (n : nat) (rs : list nat) :
  existsb (fun r => (r <=? n)%nat)
          (map Nat.pred (filter (fun r => (1 <? r)%nat) rs))
  || existsb (fun r => (r <=? 1)%nat) rs
  = existsb (fun r => (r <=? S n)%nat) rs.
Proof.
  apply Bool.eq_iff_eq_true.
  rewrite orb_true_iff, !existsb_exists. split.
  - intros [(x & Hin & Hx) | (x & Hin & Hx)].
    + apply in_map_iff in Hin as (y & <- & Hy).
      apply filter_In in Hy as [Hy H1]. apply Nat.ltb_lt in H1.
      apply Nat.leb_le in Hx. exists y. split; [exact Hy|].
      apply Nat.leb_le. lia.
    + apply Nat.leb_le in Hx. exists x. split; [exact Hin|].
      apply Nat.leb_le. lia.
  - intros (x & Hin & Hx). apply Nat.leb_le in Hx.
    destruct (Nat.ltb_spec 1 x) as [H1|H1].
    + left. exists (Nat.pred x). split.
      * apply in_map_iff. exists x. split; [reflexivity|].
        apply filter_In. split; [exact Hin|]. now apply Nat.ltb_lt.
      * apply Nat.leb_le. lia.
    + right. exists x. split; [exact Hin|]. apply Nat.leb_le. lia.
Qed.

(** The indicator after [n] milliseconds with no copy: the flag is off
    when some timeout has run, and the other timeouts have [n] less. *)
Lemma waits_spec (n : nat) (i : Indicator) :
  Forall (fun r => (1 <= r)%nat) (resets i) ->
  runIndicator i (waits n)
  = mkIndicator
      (if existsb (fun r => (r <=? n)%nat) (resets i) then false else copied i)
      (map (fun r => (r - n)%nat) (filter (fun r => (n <? r)%nat) (resets i))).
Proof.
  revert i. induction n as [|n IH]; intros [c rs] Hrs; cbn [copied resets] in *.
  - destruct (resets_now rs Hrs) as [-> ->]. reflexivity.
  - unfold waits, runIndicator in *. cbn [repeat fold_left stepIndicator].
    rewrite IH by apply resets_after_tick.
    unfold tickIndicator. cbn [copied resets].
    rewrite resets_left, <- (resets_due n rs). f_equal.
    set (A := existsb (fun r => (r <=? n)%nat)
                      (map Nat.pred (filter (fun r => (1 <? r)%nat) rs))).
    set (B := existsb (fun r => (r <=? 1)%nat) rs).
    now destruct A, B.
Qed.

Lemma indicator_inv_step (i : Indicator) (e : CopyEvent) :
  indicator_inv i -> indicator_inv (stepIndicator i e).
Proof.
  intros [Hb Hc]. destruct e; cbn [stepIndicator]; [| now split |].
  - split; cbn [onCopied resets copied].
    + apply Forall_app. split; [exact Hb|].
      constructor; [unfold COPIED_DELAY; lia|constructor].
    + intros _ E. now apply app_eq_nil in E as [_ E].
  - destruct i as [c rs]. unfold tickIndicator. cbn [copied resets] in *.
    split.
    + clear Hc. induction Hb as [|r rs Hr _ IH]; [constructor|].
      cbn [filter]. destruct (Nat.ltb_spec 1 r); [|exact IH].
      cbn [map]. constructor; [lia|exact IH].
    + destruct (existsb (fun r => (r <=? 1)%nat) rs) eqn:Hdue; [discriminate|].
      intros Hcop. specialize (Hc Hcop).
      destruct rs as [|r rs]; [congruence|].
      cbn [existsb] in Hdue. apply orb_false_iff in Hdue as [Hr _].
      cbn [filter]. apply Nat.leb_gt in Hr.
      destruct (Nat.ltb_spec 1 r); [discriminate|lia].
Qed.

Lemma indicator_inv_run (es : list CopyEvent) (i : Indicator) :
  indicator_inv i -> indicator_inv (runIndicator i es).
Proof.
  revert i. induction es as [|e es IH]; intros i Hi; [exact Hi|].
  apply IH, indicator_inv_step, Hi.
Qed.

Lemma indicator_inv0 : indicator_inv indicator0.
Proof. split; [constructor|discriminate]. Qed.

Lemma indicator_inv_positive (i : Indicator) :
  indicator_inv i -> Forall (fun r => (1 <= r)%nat) (resets i).
Proof.
  intros [Hb _]. eapply Forall_impl; [|exact Hb]. cbn. intros; lia.
Qed.

(** X13.  Whatever copies succeeded or failed before, 2000 ms without a
    copy leave the indicator off with no timeout pending: it never stays
    on. *)
Theorem indicator_always_clears (es : list CopyEvent) :
  runIndicator (runIndicator indicator0 es) (waits COPIED_DELAY) = indicator0.
Proof.
  pose proof (indicator_inv_run es indicator0 indicator_inv0) as Hinv.
  destruct (runIndicator indicator0 es) as [c rs].
  rewrite waits_spec by now apply indicator_inv_positive.
  destruct Hinv as [Hb Hc]. cbn [copied resets] in *.
  unfold indicator0. f_equal.
  - destruct rs as [|r rs].
    + cbn. destruct c; [now exfalso; apply Hc|reflexivity].
    + inversion Hb as [|? ? Hr _]; subst. cbn [existsb].
      destruct (Nat.leb_spec r COPIED_DELAY); [reflexivity|lia].
  - clear Hc. induction Hb as [|r rs Hr _ IH]; [reflexivity|].
    cbn [filter]. destruct (Nat.ltb_spec COPIED_DELAY r); [lia|exact IH].
Qed.

(** X14.  With no timeout pending, a copy that succeeds shows the
    indicator for exactly 2000 ms: it is on during the first 1999 and off
    from the 2000th on, when the indicator is back in its first state. *)
Theorem indicator_single_copy (i : Indicator) (n : nat) :
  resets i = [] ->
  copied (runIndicator (onCopied i) (waits n)) = (n <? COPIED_DELAY)%nat /\
  ((COPIED_DELAY <= n)%nat ->
   runIndicator (onCopied i) (waits n) = indicator0).
Proof.
  intros Hr. unfold onCopied. rewrite Hr. cbn [app].
  rewrite waits_spec
    by (cbn [resets]; constructor; [unfold COPIED_DELAY; lia|constructor]).
  cbn [copied resets existsb filter orb].
  destruct (Nat.leb_spec COPIED_DELAY n) as [Hle|Hgt].
  - destruct (Nat.ltb_spec n COPIED_DELAY); [lia|].
    cbn [orb]. split; [reflexivity|reflexivity].
  - destruct (Nat.ltb_spec n COPIED_DELAY); [|lia].
    cbn [orb]. split; [reflexivity|lia].
Qed.

Lemma indicator_single_copy_witness :
  resets indicator0 = [] /\
  copied (runIndicator (onCopied indicator0) (waits 1999)) = true /\
  runIndicator (onCopied indicator0) (waits 2000) = indicator0.
Proof.
  split; [reflexivity|].
  destruct (indicator_single_copy indicator0 1999 eq_refl) as [H1 _].
  destruct (indicator_single_copy indicator0 2000 eq_refl) as [_ H2].
  split; [rewrite H1; reflexivity|].
  apply H2. unfold COPIED_DELAY. lia.
Defined.

(** X15.  The timeouts are never cleared: after a new copy, a timeout
    left from an earlier one still runs when its own delay ends, and
    turns the indicator off then, however recent the new copy. *)
Theorem indicator_cleared_by_older_timer (es : list CopyEvent) (r : nat) :
  In r (resets (runIndicator indicator0 es)) ->
  (r <= COPIED_DELAY)%nat /\
  copied (runIndicator (onCopied (runIndicator indicator0 es)) (waits r))
    = false.
Proof.
  pose proof (indicator_inv_run es indicator0 indicator_inv0) as Hinv.
  destruct (runIndicator indicator0 es) as [c rs].
  cbn [resets]. intros Hin.
  pose proof Hinv as [Hb _]. cbn [resets] in Hb.
  rewrite Forall_forall in Hb. specialize (Hb r Hin).
  split; [lia|].
  rewrite waits_spec.
  - cbn [onCopied copied resets].
    replace (existsb (fun r0 => (r0 <=? r)%nat) (rs ++ [COPIED_DELAY])) with true;
      [reflexivity|].
    symmetry. apply existsb_exists. exists r. split.
    + apply in_or_app. now left.
    + apply Nat.leb_refl.
  - apply indicator_inv_positive.
    apply (indicator_inv_step (mkIndicator c rs) Copied Hinv).
Qed.

Lemma indicator_cleared_by_older_timer_witness :
  In 500%nat (resets (runIndicator indicator0 (Copied :: waits 1500))) /\
  copied (onCopied (runIndicator indicator0 (Copied :: waits 1500))) = true /\
  copied (runIndicator (onCopied (runIndicator indicator0 (Copied :: waits 1500)))
                       (waits 500)) = false.
Proof.
  assert (Hin : In 500%nat
                   (resets (runIndicator indicator0 (Copied :: waits 1500))))
    by (vm_compute; now left).
  split; [exact Hin|]. split; [reflexivity|].
  apply (indicator_cleared_by_older_timer (Copied :: waits 1500) 500 Hin).
Defined.
